(** * Battleships: a shallow embedding of [battleships/battleships.py]

    The game engine is embedded as executable Rocq functions.  Python
    integers are [Z]; Python lists are [list], indexed the way Python
    indexes them (negative indices count from the end, anything else out
    of range raises [IndexError]); exceptions are values of [exn] carried
    by the [result] monad; [User] objects live in a heap addressed by
    references, so that two arguments naming the same object alias. *)

From Stdlib Require Import String Ascii ZArith List Lia Bool.
Import ListNotations.
Open Scope Z_scope.

(** ** Exceptions and the result monad *)

Inductive exn : Type :=
| IndexError
| ValueError
| SystemExit (code : Z).

Inductive result (A : Type) : Type :=
| Ok (a : A)
| Raise (e : exn).

Arguments Ok {A} a.
Arguments Raise {A} e.

Definition bind {A B : Type} (m : result A) (k : A -> result B) : result B :=
  match m with
  | Ok a => k a
  | Raise e => Raise e
  end.

Notation "x <- m ;; k" := (bind m (fun x => k))
  (at level 61, m at next level, right associativity).
Notation "' pat <- m ;; k" := (bind m (fun pat => k))
  (at level 61, pat pattern, m at next level, right associativity).

(** ** Python list indexing *)

(** The position a Python index [i] denotes in a list of [n] items. *)
Definition py_index (n : nat) (i : Z) : option nat :=
  if (0 <=? i) && (i <? Z.of_nat n) then Some (Z.to_nat i)
  else if (i <? 0) && (- Z.of_nat n <=? i) then Some (Z.to_nat (Z.of_nat n + i))
  else None.

Fixpoint set_nth {A : Type} (l : list A) (k : nat) (v : A) : list A :=
  match l, k with
  | [], _ => []
  | _ :: t, O => v :: t
  | a :: t, S k' => a :: set_nth t k' v
  end.

(** [l[i]] *)
Definition getitem {A : Type} (l : list A) (i : Z) : result A :=
  match py_index (length l) i with
  | Some k =>
      match nth_error l k with
      | Some a => Ok a
      | None => Raise IndexError
      end
  | None => Raise IndexError
  end.

(** [l[i] = v] *)
Definition setitem {A : Type} (l : list A) (i : Z) (v : A) : result (list A) :=
  match py_index (length l) i with
  | Some k => Ok (set_nth l k v)
  | None => Raise IndexError
  end.

(** [range(n)] *)
Definition range (n : Z) : list Z :=
  map Z.of_nat (seq 0 (Z.to_nat n)).

(** ** Geometry *)

(** Modelled from the spec: the module [vec2] ([Vec2], [vec_add],
    [vec_scalar_multiply]) is imported by the source but is not part of
    it.  The spec describes a "2D integer vector type with addition,
    scalar multiply", a coordinate being an integer pair (column, row)
    with "equality by value". *)
Record Vec2 : Type := mkVec2 { vx : Z; vy : Z }.

Definition vec_add (a b : Vec2) : Vec2 :=
  mkVec2 (vx a + vx b) (vy a + vy b).

Definition vec_scalar_multiply (a : Vec2) (k : Z) : Vec2 :=
  mkVec2 (vx a * k) (vy a * k).

Definition Vec2_eqb (a b : Vec2) : bool :=
  (vx a =? vx b) && (vy a =? vy b).

(** [c in l] for a list of coordinates *)
Definition Vec2_in (c : Vec2) (l : list Vec2) : bool :=
  existsb (Vec2_eqb c) l.

(** ** Enumerations *)

Module Orientation.
Inductive t : Type := N | E | S | W.

Definition value (o : t) : Vec2 :=
  match o with
  | N => mkVec2 0 (-1)
  | E => mkVec2 1 0
  | S => mkVec2 0 1
  | W => mkVec2 (-1) 0
  end.

(** [list(Orientation)], in definition order *)
Definition members : list t := [N; E; S; W].
End Orientation.

Module SquareState.
Inductive t : Type := EMPTY | SHIP | MISS | HIT.

Definition eqb (a b : t) : bool :=
  match a, b with
  | EMPTY, EMPTY | SHIP, SHIP | MISS, MISS | HIT, HIT => true
  | _, _ => false
  end.
End SquareState.

Module KnowledgeSquareState.
Inductive t : Type := UNKNOWN | MISS | HIT.

Definition eqb (a b : t) : bool :=
  match a, b with
  | UNKNOWN, UNKNOWN | MISS, MISS | HIT, HIT => true
  | _, _ => false
  end.
End KnowledgeSquareState.

Module FireResult.
Inductive t : Type := HIT | MISS | FAIL | SUNK.
End FireResult.

(** ** Constants and types *)

Definition LOOP_MAX : Z := 100000.
Definition BOARD_WIDTH : Z := 10.
Definition BOARD_HEIGHT : Z := 10.
Definition SHIP_LENGTHS : list Z := [5; 4; 3; 3; 2].

Definition Board (A : Type) : Type := list (list A).
Definition MainBoard : Type := Board SquareState.t.
Definition KnowledgeBoard : Type := Board KnowledgeSquareState.t.

(** ** Ships and users *)

Record Ship : Type := mkShip {
  hits : Z;
  sunk : bool;
  squares : list Vec2
}.

(** [Ship(squares)] *)
Definition Ship_init (sq : list Vec2) : Ship := mkShip 0 false sq.

(** [Ship.hit]: the flag it returns and the ship after the call. *)
Definition Ship_hit (s : Ship) : bool * Ship :=
  let hits' := hits s + 1 in
  if hits' =? Z.of_nat (length (squares s))
  then (true, mkShip hits' true (squares s))
  else (false, mkShip hits' (sunk s) (squares s)).

Definition new_board {A : Type} (default : A) (height width : Z) : Board A :=
  map (fun _ => map (fun _ => default) (range width)) (range height).

Record User : Type := mkUser {
  board : MainBoard;
  ships : list Ship;
  knowledge : KnowledgeBoard
}.

(** [User()] *)
Definition User_init : User :=
  mkUser (new_board SquareState.EMPTY BOARD_HEIGHT BOARD_WIDTH)
         []
         (new_board KnowledgeSquareState.UNKNOWN BOARD_HEIGHT BOARD_WIDTH).

(** [User] objects are mutable and passed by reference. *)
Definition UserRef : Type := nat.
Definition Heap : Type := UserRef -> User.

Definition upd (h : Heap) (r : UserRef) (u : User) : Heap :=
  fun r' => if Nat.eqb r' r then u else h r'.

Definition set_board (u : User) (b : MainBoard) : User :=
  mkUser b (ships u) (knowledge u).
Definition set_ships (u : User) (l : list Ship) : User :=
  mkUser (board u) l (knowledge u).
Definition set_knowledge (u : User) (k : KnowledgeBoard) : User :=
  mkUser (board u) (ships u) k.

(** ** Board operations *)

(** [board[c.y][c.x]] *)
Definition board_get {A : Type} (b : Board A) (c : Vec2) : result A :=
  row <- getitem b (vy c) ;;
  getitem row (vx c).

(** [board[c.y][c.x] = v]: the row object is updated in place. *)
Definition board_set {A : Type} (b : Board A) (c : Vec2) (v : A)
  : result (Board A) :=
  row <- getitem b (vy c) ;;
  row' <- setitem row (vx c) v ;;
  setitem b (vy c) row'.

Definition square_in_board {A : Type} (square : Vec2) (b : Board A)
  : result bool :=
  row0 <- getitem b 0 ;;
  let width := Z.of_nat (length row0) in
  let height := Z.of_nat (length b) in
  Ok ((0 <=? vx square) && (vx square <? width)
      && ((0 <=? vy square) && (vy square <? height))).

Definition extend (origin direction : Vec2) (length : Z) : Vec2 :=
  vec_add origin (vec_scalar_multiply direction length).

(** ** Fleet placement *)

(** [all(square_in_board(square, board) for square in squares)] *)
Fixpoint all_in_board {A : Type} (sqs : list Vec2) (b : Board A)
  : result bool :=
  match sqs with
  | [] => Ok true
  | square :: rest =>
      ok <- square_in_board square b ;;
      if ok then all_in_board rest b else Ok false
  end.

(** [any(len([s for s in squares if s in existing_ship.squares]) > 0
         for existing_ship in ships)] *)
Definition overlaps (sqs : list Vec2) (existing : list Ship) : bool :=
  existsb
    (fun existing_ship =>
       0 <? Z.of_nat
              (length (filter (fun s => Vec2_in s (squares existing_ship)) sqs)))
    existing.

(** [for square in squares: board[square.y][square.x] = SHIP] *)
Fixpoint mark_ship (sqs : list Vec2) (b : MainBoard) : result MainBoard :=
  match sqs with
  | [] => Ok b
  | square :: rest =>
      b' <- board_set b square SquareState.SHIP ;;
      mark_ship rest b'
  end.

Definition new_valid_ship (origin : Vec2) (orientation : Orientation.t)
  (length : Z) (owner : UserRef) (h : Heap) : result (option Ship * Heap) :=
  let sqs :=
    map (fun i => extend origin (Orientation.value orientation) i)
        (range length) in
  inb <- all_in_board sqs (board (h owner)) ;;
  if negb inb then Ok (None, h)
  else if overlaps sqs (ships (h owner)) then Ok (None, h)
  else
    let new_ship := Ship_init sqs in
    let h1 := upd h owner (set_ships (h owner) (ships (h owner) ++ [new_ship])) in
    b' <- mark_ship (squares new_ship) (board (h1 owner)) ;;
    Ok (Some new_ship, upd h1 owner (set_board (h1 owner) b')).

(** ** Shot resolution *)

(** The [for ship in target.ships] scan: the first ship whose squares
    contain [coord] is hit in place; [None] when the loop runs to its
    [else] branch. *)
Fixpoint hit_first (coord : Vec2) (l : list Ship)
  : option (bool * list Ship) :=
  match l with
  | [] => None
  | ship :: rest =>
      if Vec2_in coord (squares ship)
      then let (sk, ship') := Ship_hit ship in Some (sk, ship' :: rest)
      else match hit_first coord rest with
           | Some (sk, rest') => Some (sk, ship :: rest')
           | None => None
           end
  end.

Definition fire_missile (coord : Vec2) (source target : UserRef) (h : Heap)
  : result (FireResult.t * Heap) :=
  k <- board_get (knowledge (h source)) coord ;;
  if negb (KnowledgeSquareState.eqb k KnowledgeSquareState.UNKNOWN)
  then Ok (FireResult.FAIL, h)
  else
    match hit_first coord (ships (h target)) with
    | Some (sk, ships') =>
        let h1 := upd h target (set_ships (h target) ships') in
        b' <- board_set (board (h1 target)) coord SquareState.HIT ;;
        let h2 := upd h1 target (set_board (h1 target) b') in
        k' <- board_set (knowledge (h2 source)) coord KnowledgeSquareState.HIT ;;
        let h3 := upd h2 source (set_knowledge (h2 source) k') in
        Ok (if sk then FireResult.SUNK else FireResult.HIT, h3)
    | None =>
        k' <- board_set (knowledge (h source)) coord KnowledgeSquareState.MISS ;;
        let h1 := upd h source (set_knowledge (h source) k') in
        b' <- board_set (board (h1 target)) coord SquareState.MISS ;;
        let h2 := upd h1 target (set_board (h1 target) b') in
        Ok (FireResult.MISS, h2)
    end.

(** ** Positions, shapes and bounds *)

(** The cell of a board at a (row, column) position. *)
Definition cell {A : Type} (b : Board A) (p : nat * nat) : option A :=
  match nth_error b (fst p) with
  | Some row => nth_error row (snd p)
  | None => None
  end.

Definition set_cell {A : Type} (b : Board A) (p : nat * nat) (v : A) : Board A :=
  match nth_error b (fst p) with
  | Some row => set_nth b (fst p) (set_nth row (snd p) v)
  | None => b
  end.

(** The position Python's [board[c.y][c.x]] resolves to, if any. *)
Definition locate {A : Type} (b : Board A) (c : Vec2) : option (nat * nat) :=
  match py_index (length b) (vy c) with
  | Some i =>
      match nth_error b i with
      | Some row =>
          match py_index (length row) (vx c) with
          | Some j => Some (i, j)
          | None => None
          end
      | None => None
      end
  | None => None
  end.

(** A board of [h] rows, each of [w] cells. *)
Definition dims {A : Type} (b : Board A) (h w : Z) : Prop :=
  Z.of_nat (length b) = h /\ Forall (fun row => Z.of_nat (length row) = w) b.

Definition in_bounds (c : Vec2) (h w : Z) : Prop :=
  (0 <= vx c < w) /\ (0 <= vy c < h).

(** The position of an in-bounds coordinate. *)
Definition pos (c : Vec2) : nat * nat := (Z.to_nat (vy c), Z.to_nat (vx c)).

(** Number of cells of a board in state [SHIP]. *)
Definition count_ship (b : MainBoard) : Z :=
  fold_right
    (fun row acc =>
       Z.of_nat (length (filter (SquareState.eqb SquareState.SHIP) row)) + acc)
    0 b.

(** ** Coordinate decoding *)

(** Strings are sequences of code points; [string] gives the code points
    0..255, on which [str.lower] acts one character at a time: it moves
    A..Z and the accented capitals (0xC0..0xDE, the multiplication sign
    0xD7 apart) 32 places up and keeps everything else. *)
Definition ord (c : ascii) : Z := Z.of_N (N_of_ascii c).

Definition lower_char (c : ascii) : ascii :=
  let n := ord c in
  if ((65 <=? n) && (n <=? 90))
     || ((192 <=? n) && (n <=? 222) && negb (n =? 215))
  then ascii_of_N (Z.to_N (n + 32))
  else c.

(** [text.lower()] *)
Definition lower (text : list ascii) : list ascii := map lower_char text.

(** [int(c)] for a one-character string: only the decimal digits parse. *)
Definition int_of_char (c : ascii) : result Z :=
  let n := ord c in
  if (48 <=? n) && (n <=? 57) then Ok (n - 48) else Raise ValueError.

Definition decode_notation {A : Type} (text : string) (b : Board A)
  : result (option Vec2) :=
  let chars := list_ascii_of_string text in
  if negb (Z.of_nat (length chars) =? 2) then Ok None
  else
    let body :=
      c0 <- getitem (lower chars) 0 ;;
      let row := ord c0 - 97 in
      c1 <- getitem chars 1 ;;
      column <- int_of_char c1 ;;
      inb <- square_in_board (mkVec2 column row) b ;;
      if negb inb then Ok None else Ok (Some (mkVec2 column row)) in
    match body with
    | Raise ValueError => Ok None
    | r => r
    end.

(** ** Random search *)

(** The random source: the stream of raw outcomes still to be drawn. *)
Definition Rng : Type := nat -> Z.

Definition rng_skip (k : nat) (rng : Rng) : Rng := fun n => rng (k + n)%nat.

(** [randint(a, b)] *)
Definition randint (a b : Z) (rng : Rng) : result (Z * Rng) :=
  if b <? a then Raise ValueError
  else Ok (a + (rng O) mod (b - a + 1), rng_skip 1 rng).

(** [choice(l)] *)
Definition choice {A : Type} (l : list A) (rng : Rng) : result (A * Rng) :=
  match nth_error l (Z.to_nat ((rng O) mod (Z.of_nat (length l)))) with
  | Some a => Ok (a, rng_skip 1 rng)
  | None => Raise IndexError
  end.

(** The [for _ in range(LOOP_MAX)] loop of [random_square], [n] rounds
    to go; running out of rounds reaches [exit(1)]. *)
Fixpoint random_square_loop {A : Type} (eqb : A -> A -> bool) (n : nat)
  (b : Board A) (board_width board_height : Z) (matching : A) (rng : Rng)
  : result (Vec2 * Rng) :=
  match n with
  | O => Raise (SystemExit 1)
  | S n' =>
      '(cx, rng1) <- randint 0 (board_width - 1) rng ;;
      '(cy, rng2) <- randint 0 (board_height - 1) rng1 ;;
      let coord := mkVec2 cx cy in
      v <- board_get b coord ;;
      if eqb v matching then Ok (coord, rng2)
      else random_square_loop eqb n' b board_width board_height matching rng2
  end.

Definition random_square {A : Type} (eqb : A -> A -> bool) (b : Board A)
  (matching : A) (rng : Rng) : result (Vec2 * Rng) :=
  let board_height := Z.of_nat (length b) in
  row0 <- getitem b 0 ;;
  let board_width := Z.of_nat (length row0) in
  random_square_loop eqb (Z.to_nat LOOP_MAX) b board_width board_height
    matching rng.

(** ** The game: placement and firing phases *)

Definition player : UserRef := 0%nat.
Definition ai : UserRef := 1%nat.

(** The heap right after [ai = User()] and [player = User()]. *)
Definition fresh : Heap := fun _ => User_init.

(** The [while new_ship is None] loop of the opponent's placement, run
    for at most [fuel] rounds; [None] when the loop is still running
    after that many rounds. *)
Fixpoint place_retry (fuel : nat) (length : Z) (owner : UserRef)
  (rng : Rng) (h : Heap) : option (result (Ship * Rng * Heap)) :=
  match fuel with
  | O => None
  | S fuel' =>
      match random_square SquareState.eqb (board (h owner)) SquareState.EMPTY rng with
      | Raise e => Some (Raise e)
      | Ok (origin, rng1) =>
          match choice Orientation.members rng1 with
          | Raise e => Some (Raise e)
          | Ok (orientation, rng2) =>
              match new_valid_ship origin orientation length owner h with
              | Raise e => Some (Raise e)
              | Ok (Some new_ship, h') => Some (Ok (new_ship, rng2, h'))
              | Ok (None, h') => place_retry fuel' length owner rng2 h'
              end
          end
      end
  end.

(** [[new_valid_ship(s[0], s[1], s[2], owner) for s in ships]] *)
Fixpoint place_ships (owner : UserRef) (reqs : list (Vec2 * Orientation.t * Z))
  (h : Heap) : result Heap :=
  match reqs with
  | [] => Ok h
  | (origin, orientation, length) :: rest =>
      '(_, h') <- new_valid_ship origin orientation length owner h ;;
      place_ships owner rest h'
  end.

(** A shooter firing at one target, one coordinate after the other; the
    trace pairs every coordinate with the result of its call. *)
Fixpoint fire_seq (source target : UserRef) (coords : list Vec2) (h : Heap)
  : result (list (Vec2 * FireResult.t) * Heap) :=
  match coords with
  | [] => Ok ([], h)
  | coord :: rest =>
      '(r, h') <- fire_missile coord source target h ;;
      '(tr, h'') <- fire_seq source target rest h' ;;
      Ok ((coord, r) :: tr, h'')
  end.

(** [all(ship.sunk for ship in fleet)] *)
Definition all_sunk (fleet : list Ship) : bool := forallb sunk fleet.

(** The states of a game: both users created, then any interleaving of
    placements and of shots of one player at the other. *)
Inductive reachable : Heap -> Prop :=
| reach_init : reachable fresh
| reach_place h origin orientation length owner r h' :
    reachable h ->
    new_valid_ship origin orientation length owner h = Ok (r, h') ->
    reachable h'
| reach_fire h coord source target r h' :
    reachable h ->
    (source = player /\ target = ai) \/ (source = ai /\ target = player) ->
    fire_missile coord source target h = Ok (r, h') ->
    reachable h'.



(** No two ships of a fleet share a coordinate. *)
Definition disjoint_fleet (fleet : list Ship) : Prop :=
  forall i j si sj c,
    i <> j ->
    nth_error fleet i = Some si -> nth_error fleet j = Some sj ->
    In c (squares si) -> ~ In c (squares sj).

(** The squares [origin + i * direction], [i = 0 .. length - 1], as the
    spec words them. *)
Definition candidates (origin : Vec2) (orientation : Orientation.t) (length : Z)
  : list Vec2 :=
  map (fun i => vec_add origin (vec_scalar_multiply (Orientation.value orientation) i))
      (range length).

(** What a shot at [c] finds in a fleet: the result of the call, the fleet
    after it, and the marks left on the target's board and on the
    shooter's knowledge board. *)
Definition shot_outcome (c : Vec2) (fleet : list Ship)
  : FireResult.t * list Ship * SquareState.t * KnowledgeSquareState.t :=
  match hit_first c fleet with
  | Some (sk, fleet') =>
      (if sk then FireResult.SUNK else FireResult.HIT, fleet',
       SquareState.HIT, KnowledgeSquareState.HIT)
  | None =>
      (FireResult.MISS, fleet, SquareState.MISS, KnowledgeSquareState.MISS)
  end.

(** [h'] is [h] with the target's fleet and board and the shooter's
    knowledge board replaced, every other field of every user kept. *)
Definition shot_heap (h h' : Heap) (source target : UserRef)
  (fleet' : list Ship) (b' : MainBoard) (k' : KnowledgeBoard) : Prop :=
  forall r,
    ships (h' r) = (if Nat.eqb r target then fleet' else ships (h r)) /\
    board (h' r) = (if Nat.eqb r target then b' else board (h r)) /\
    knowledge (h' r) = (if Nat.eqb r source then k' else knowledge (h r)).

(** The player's fleet of the source's placement block (lines 196-203). *)
Definition test_ships : list (Vec2 * Orientation.t * Z) :=
  [ (mkVec2 1 1, Orientation.E, 2);
    (mkVec2 1 3, Orientation.E, 3);
    (mkVec2 4 5, Orientation.E, 4);
    (mkVec2 9 2, Orientation.S, 5);
    (mkVec2 0 7, Orientation.S, 3) ].

Definition test_heap : Heap :=
  match place_ships player test_ships fresh with
  | Ok h => h
  | Raise _ => fresh
  end.

(** All the squares of a fleet, ship after ship. *)
Definition fleet_squares (fleet : list Ship) : list Vec2 :=
  concat (map squares fleet).

(** [sum(len(ship.squares) for ship in fleet)] *)
Definition total_length (fleet : list Ship) : Z :=
  fold_right (fun ship acc => Z.of_nat (length (squares ship)) + acc) 0 fleet.

Definition count_row (row : list SquareState.t) : Z :=
  Z.of_nat (length (filter (SquareState.eqb SquareState.SHIP) row)).

(** A user in the placement phase: the board has its shape, the ships lie
    on it without sharing a square, and the cells in state [SHIP] are
    squares of ships, as many as the ships have squares. *)
Definition placed_ok (u : User) (bh bw : Z) : Prop :=
  dims (board u) bh bw /\
  NoDup (fleet_squares (ships u)) /\
  (forall c, In c (fleet_squares (ships u)) -> in_bounds c bh bw) /\
  (forall c, in_bounds c bh bw ->
             cell (board u) (pos c) = Some SquareState.SHIP ->
             In c (fleet_squares (ships u))) /\
  count_ship (board u) = total_length (ships u).

(** ** The invariant of a game *)

(** The user who fires at [target]: the two players fire at each other. *)
Definition shooter_of (target : UserRef) : UserRef :=
  if Nat.eqb target player then ai else player.

Definition is_unknown (kb : KnowledgeBoard) (c : Vec2) : bool :=
  match cell kb (pos c) with
  | Some KnowledgeSquareState.UNKNOWN => true
  | _ => false
  end.

(** The squares among [sqs] the shooter has not fired at yet. *)
Definition unknown_count (kb : KnowledgeBoard) (sqs : list Vec2) : Z :=
  Z.of_nat (length (filter (is_unknown kb) sqs)).

(** A ship seen against the knowledge board of the user firing at it:
    every hit it has taken used up one of its squares, and the sunk flag
    of a ship that has squares tells whether all of them are hit. *)
Definition ship_ok (kb : KnowledgeBoard) (ship : Ship) : Prop :=
  0 <= hits ship /\
  hits ship + unknown_count kb (squares ship) <= Z.of_nat (length (squares ship)) /\
  (squares ship <> [] ->
   sunk ship = (hits ship =? Z.of_nat (length (squares ship)))) /\
  (squares ship = [] -> sunk ship = false).

Definition game_ok (h : Heap) : Prop :=
  forall u,
    dims (board (h u)) BOARD_HEIGHT BOARD_WIDTH /\
    dims (knowledge (h u)) BOARD_HEIGHT BOARD_WIDTH /\
    NoDup (fleet_squares (ships (h u))) /\
    (forall c, In c (fleet_squares (ships (h u))) ->
               in_bounds c BOARD_HEIGHT BOARD_WIDTH) /\
    Forall (ship_ok (knowledge (h (shooter_of u)))) (ships (h u)).


(** The fleet of [u] a run leaves behind. *)
Definition fleet_after {A : Type} (run : result (A * Heap)) (u : UserRef)
  : list Ship :=
  match run with
  | Ok (_, h) => ships (h u)
  | Raise _ => []
  end.

Definition heap_after {A : Type} (run : result (A * Heap)) : Heap :=
  match run with
  | Ok (_, h) => h
  | Raise _ => fresh
  end.

(** The spec's scenario: a ship of length 2 placed east from (1,1), then
    shots at (1,1), (2,1), (1,1) again and (5,5). *)
Definition scenario_placed : Heap :=
  heap_after (new_valid_ship (mkVec2 1 1) Orientation.E 2 player fresh).

Definition scenario_shots : list Vec2 :=
  [mkVec2 1 1; mkVec2 2 1; mkVec2 1 1; mkVec2 5 5].

Definition scenario_end : Heap :=
  heap_after (fire_seq ai player scenario_shots scenario_placed).



(** ** More of the program: the phases of a game *)

(** The placement phase: both users created, then placements only. *)
Inductive deployed : Heap -> Prop :=
| deployed_init : deployed fresh
| deployed_place h origin orientation length owner r h' :
    deployed h ->
    new_valid_ship origin orientation length owner h = Ok (r, h') ->
    deployed h'.

(** The firing phase: once the fleets are placed, the two players fire at
    each other, at in-bounds coordinates (what [decode_notation] and
    [random_square] hand to [fire_missile]). *)
Inductive battle : Heap -> Prop :=
| battle_start h : deployed h -> battle h
| battle_fire h coord source target r h' :
    battle h ->
    (source = player /\ target = ai) \/ (source = ai /\ target = player) ->
    in_bounds coord BOARD_HEIGHT BOARD_WIDTH ->
    fire_missile coord source target h = Ok (r, h') ->
    battle h'.

(** What the shooter's knowledge board says of a square against what the
    target's board and fleet hold there. *)
Definition mirror_at (kb : KnowledgeBoard) (b : MainBoard) (fleet : list Ship)
  (c : Vec2) : Prop :=
  match cell kb (pos c) with
  | Some KnowledgeSquareState.UNKNOWN =>
      (In c (fleet_squares fleet) -> cell b (pos c) = Some SquareState.SHIP) /\
      (~ In c (fleet_squares fleet) -> cell b (pos c) = Some SquareState.EMPTY)
  | Some KnowledgeSquareState.HIT =>
      In c (fleet_squares fleet) /\ cell b (pos c) = Some SquareState.HIT
  | Some KnowledgeSquareState.MISS =>
      ~ In c (fleet_squares fleet) /\ cell b (pos c) = Some SquareState.MISS
  | None => False
  end.

(** Every hit of a ship is one of its squares marked on the knowledge
    board of the shooter, and conversely. *)
Definition ship_exact (kb : KnowledgeBoard) (ship : Ship) : Prop :=
  hits ship + unknown_count kb (squares ship) = Z.of_nat (length (squares ship)).

Definition battle_ok (h : Heap) : Prop :=
  forall s t,
    (s = player /\ t = ai) \/ (s = ai /\ t = player) ->
    (forall c, in_bounds c BOARD_HEIGHT BOARD_WIDTH ->
               mirror_at (knowledge (h s)) (board (h t)) (ships (h t)) c) /\
    Forall (ship_exact (knowledge (h s))) (ships (h t)).

(** [Ship.hit] called [k] times in a row; the flags the calls return,
    the last call first. *)
Fixpoint hit_times (k : nat) (s : Ship) : list bool * Ship :=
  match k with
  | O => ([], s)
  | S k' =>
      let (flags, s') := hit_times k' s in
      let (flag, s'') := Ship_hit s' in
      (flag :: flags, s'')
  end.

(** The [for length in SHIP_LENGTHS] loop of the opponent's placement,
    every [while new_ship is None] loop run for at most [fuel] rounds. *)
Fixpoint place_fleet (fuel : nat) (lengths : list Z) (owner : UserRef)
  (rng : Rng) (h : Heap) : option (result (Rng * Heap)) :=
  match lengths with
  | [] => Some (Ok (rng, h))
  | length :: rest =>
      match place_retry fuel length owner rng h with
      | None => None
      | Some (Raise e) => Some (Raise e)
      | Some (Ok (_, rng', h')) => place_fleet fuel rest owner rng' h'
      end
  end.


(** The square a Python index pair with negative components denotes. *)
Definition wrap (c : Vec2) (bh bw : Z) : Vec2 :=
  mkVec2 (vx c mod bw) (vy c mod bh).

(** A user in the placement phase, seen from the firing phase to come:
    nothing is known, no ship is hit, and the board shows the fleet. *)
Definition deployed_ok (h : Heap) : Prop :=
  forall u,
    knowledge (h u) = new_board KnowledgeSquareState.UNKNOWN BOARD_HEIGHT BOARD_WIDTH /\
    Forall (fun ship => hits ship = 0) (ships (h u)) /\
    (forall c, in_bounds c BOARD_HEIGHT BOARD_WIDTH ->
       (In c (fleet_squares (ships (h u))) ->
        cell (board (h u)) (pos c) = Some SquareState.SHIP) /\
       (~ In c (fleet_squares (ships (h u))) ->
        cell (board (h u)) (pos c) = Some SquareState.EMPTY)).

Definition is_hit_cell (b : MainBoard) (c : Vec2) : bool :=
  match cell b (pos c) with
  | Some SquareState.HIT => true
  | _ => false
  end.

(** ** Display *)

(** Printed text is a sequence of code points: the text handed to
    [print], before the terminal encodes it. *)
Definition Text : Type := list Z.

(** The code points of the decimal numeral [d]. *)
Fixpoint uint_codes (d : Decimal.uint) : Text :=
  match d with
  | Decimal.Nil => []
  | Decimal.D0 d' => 48 :: uint_codes d'
  | Decimal.D1 d' => 49 :: uint_codes d'
  | Decimal.D2 d' => 50 :: uint_codes d'
  | Decimal.D3 d' => 51 :: uint_codes d'
  | Decimal.D4 d' => 52 :: uint_codes d'
  | Decimal.D5 d' => 53 :: uint_codes d'
  | Decimal.D6 d' => 54 :: uint_codes d'
  | Decimal.D7 d' => 55 :: uint_codes d'
  | Decimal.D8 d' => 56 :: uint_codes d'
  | Decimal.D9 d' => 57 :: uint_codes d'
  end.

(** [str(i)] for an integer *)
Definition str_int (i : Z) : Text :=
  match Z.to_int i with
  | Decimal.Pos d => uint_codes d
  | Decimal.Neg d => 45 :: uint_codes d
  end.

(** [chr(n)] *)
Definition chr (n : Z) : result Z :=
  if (0 <=? n) && (n <=? 1114111) then Ok n else Raise ValueError.

(** [sep.join(parts)] *)
Fixpoint join (sep : Text) (parts : list Text) : Text :=
  match parts with
  | [] => []
  | [a] => a
  | a :: rest => a ++ sep ++ join sep rest
  end.

(** The values of the enumerations: the glyphs " ", "#", "·" and "X". *)
Definition SquareState_value (s : SquareState.t) : Text :=
  match s with
  | SquareState.EMPTY => [32]
  | SquareState.SHIP => [35]
  | SquareState.MISS => [183]
  | SquareState.HIT => [88]
  end.

Definition KnowledgeSquareState_value (s : KnowledgeSquareState.t) : Text :=
  match s with
  | KnowledgeSquareState.UNKNOWN => [32]
  | KnowledgeSquareState.MISS => [183]
  | KnowledgeSquareState.HIT => [88]
  end.

(** The [for i in range(height)] loop of [display_board]: one printed
    line per row, the two [print] calls of a round making one line. *)
Fixpoint display_rows {A : Type} (value : A -> Text) (b : Board A)
  (indices : list Z) : result (list Text) :=
  match indices with
  | [] => Ok []
  | i :: rest =>
      letter <- chr (i + 65) ;;
      row <- getitem b i ;;
      let line :=
        ([9474; 32] ++ [letter] ++ [32])
        ++ join [32] (map value row) ++ [32; 32; 32; 9474] in
      lines <- display_rows value b rest ;;
      Ok (line :: lines)
  end.

(** [display_board]: the lines it prints. *)
Definition display_board {A : Type} (value : A -> Text) (b : Board A)
  : result (list Text) :=
  let height := Z.of_nat (length b) in
  row0 <- getitem b 0 ;;
  let width := Z.of_nat (length row0) in
  let header :=
    [9474; 32; 32; 32] ++ join [32] (map str_int (range width))
    ++ [32; 32; 32; 9474] in
  rows <- display_rows value b (range height) ;;
  Ok (header :: rows).

(** [Board = MainBoard | KnowledgeBoard] *)
Inductive AnyBoard : Type :=
| MainB (b : MainBoard)
| KnowB (b : KnowledgeBoard).

Definition display_any (b : AnyBoard) : result (list Text) :=
  match b with
  | MainB b => display_board SquareState_value b
  | KnowB b => display_board KnowledgeSquareState_value b
  end.

(** [len(board[0])] *)
Definition first_row_length (b : AnyBoard) : result Z :=
  match b with
  | MainB b => row0 <- getitem b 0 ;; Ok (Z.of_nat (length row0))
  | KnowB b => row0 <- getitem b 0 ;; Ok (Z.of_nat (length row0))
  end.

(** ["─" * n] *)
Definition rule (n : Z) : Text := repeat 9472 (Z.to_nat n).

(** The [for i, board in enumerate(boards)] loop of [display_boards]. *)
Fixpoint display_each (boards : list AnyBoard) (i n line_width : Z)
  : result (list Text) :=
  match boards with
  | [] => Ok []
  | b :: rest =>
      lines <- display_any b ;;
      let closing :=
        if i <? n - 1 then [[9500] ++ rule line_width ++ [9508]]
        else if i =? n - 1 then [[9492] ++ rule line_width ++ [9496]]
        else [] in
      more <- display_each rest (i + 1) n line_width ;;
      Ok (lines ++ closing ++ more)
  end.

(** [display_boards]: the lines it prints once [clear()] (of module
    [common], which only acts on the terminal) has run. *)
Definition display_boards (boards : list AnyBoard) : result (list Text) :=
  first <- getitem boards 0 ;;
  board_width <- first_row_length first ;;
  let line_width := board_width * 2 + 5 in
  let top := [9484] ++ rule line_width ++ [9488] in
  lines <- display_each boards 0 (Z.of_nat (length boards)) line_width ;;
  Ok (top :: lines).

(** The character with a code point below 256, as [decode_notation]
    takes it. *)
Definition ascii_of_code (n : Z) : ascii := ascii_of_N (Z.to_N n).

Definition any_height (b : AnyBoard) : Z :=
  match b with
  | MainB b => Z.of_nat (length b)
  | KnowB b => Z.of_nat (length b)
  end.

(** A board of either kind with rows of [bw] cells. *)
Definition any_dims (b : AnyBoard) (bh bw : Z) : Prop :=
  match b with
  | MainB b => dims b bh bw
  | KnowB b => dims b bh bw
  end.

(** The line [display_board] prints for row [i]. *)
Definition row_line {A : Type} (value : A -> Text) (b : Board A) (i : Z) : Text :=
  ([9474; 32] ++ [i + 65] ++ [32])
  ++ join [32] (map value (nth (Z.to_nat i) b [])) ++ [32; 32; 32; 9474].

(** ** The player's placement loop *)






(** A random source that lets the opponent's fleet be placed. *)
Definition sample_rng : Rng := fun n => Z.of_nat n * 7 + 3.

(** The boards the main loop displays (line 206). *)
Definition default_boards (h : Heap) : list AnyBoard :=
  [MainB (board (h ai)); KnowB (knowledge (h player)); MainB (board (h player))].

(** ** Basic facts *)

Lemma Vec2_eqb_eq a b : Vec2_eqb a b = true <-> a = b.
Proof.
  destruct a as [ax ay], b as [bx by_]; unfold Vec2_eqb; simpl.
  rewrite andb_true_iff, !Z.eqb_eq. split.
  - intros [-> ->]; reflexivity.
  - intros H; inversion H; auto.
Qed.

Lemma Vec2_eqb_refl a : Vec2_eqb a a = true.
Proof. apply Vec2_eqb_eq; reflexivity. Qed.

Lemma Vec2_in_In c l : Vec2_in c l = true <-> In c l.
Proof.
  unfold Vec2_in. rewrite existsb_exists. split.
  - intros [d [Hd He]]. apply Vec2_eqb_eq in He. subst; assumption.
  - intros H. exists c. split; [assumption | apply Vec2_eqb_refl].
Qed.

Lemma Vec2_in_false c l : Vec2_in c l = false <-> ~ In c l.
Proof.
  rewrite <- Vec2_in_In. destruct (Vec2_in c l); split; intros; congruence.
Qed.

Lemma Vec2_eq_dec (a b : Vec2) : {a = b} + {a <> b}.
Proof. decide equality; apply Z.eq_dec. Defined.

Lemma pos_inj c d :
  0 <= vx c -> 0 <= vy c -> 0 <= vx d -> 0 <= vy d -> pos c = pos d -> c = d.
Proof.
  destruct c as [cx cy], d as [dx dy]; unfold pos; simpl.
  intros ? ? ? ? H. inversion H. f_equal; lia.
Qed.

Lemma py_index_lt n i k : py_index n i = Some k -> (k < n)%nat.
Proof.
  unfold py_index.
  destruct ((0 <=? i) && (i <? Z.of_nat n)) eqn:E1.
  - intros H; inversion H; subst. apply andb_true_iff in E1 as [? ?]. lia.
  - destruct ((i <? 0) && (- Z.of_nat n <=? i)) eqn:E2; [|discriminate].
    intros H; inversion H; subst. apply andb_true_iff in E2 as [? ?]. lia.
Qed.

Lemma py_index_inb n i : 0 <= i < Z.of_nat n -> py_index n i = Some (Z.to_nat i).
Proof.
  intros H. unfold py_index.
  replace ((0 <=? i) && (i <? Z.of_nat n)) with true; [reflexivity|].
  symmetry; apply andb_true_iff; split; lia.
Qed.

Lemma py_index_none_iff n i :
  py_index n i = None <-> (i < - Z.of_nat n \/ Z.of_nat n <= i).
Proof.
  unfold py_index.
  destruct (0 <=? i) eqn:E1, (i <? Z.of_nat n) eqn:E2,
           (i <? 0) eqn:E3, (- Z.of_nat n <=? i) eqn:E4; simpl;
    split; intros H; try discriminate; try lia; try reflexivity.
Qed.

Lemma set_nth_length {A} (l : list A) k v : length (set_nth l k v) = length l.
Proof.
  revert k; induction l as [|a l IH]; intros [|k]; simpl; auto.
Qed.

Lemma nth_error_set_nth_eq {A} (l : list A) k v :
  (k < length l)%nat -> nth_error (set_nth l k v) k = Some v.
Proof.
  revert k; induction l as [|a l IH]; intros [|k]; simpl; intros H;
    try lia; auto. apply IH; lia.
Qed.

Lemma nth_error_set_nth_neq {A} (l : list A) k k' v :
  k' <> k -> nth_error (set_nth l k v) k' = nth_error l k'.
Proof.
  revert k k'; induction l as [|a l IH]; intros [|k] [|k']; simpl; intros H;
    try congruence; auto.
Qed.

Lemma getitem_located {A} (l : list A) i k :
  py_index (length l) i = Some k -> exists a, getitem l i = Ok a /\ nth_error l k = Some a.
Proof.
  intros H. unfold getitem. rewrite H.
  destruct (nth_error l k) as [a|] eqn:E; [eauto|].
  apply nth_error_None in E. apply py_index_lt in H. lia.
Qed.

(** ** Boards: reading and writing a cell *)

Lemma board_get_Ok {A} (b : Board A) c v :
  board_get b c = Ok v <-> exists p, locate b c = Some p /\ cell b p = Some v.
Proof.
  unfold board_get, locate, cell, getitem, bind.
  destruct (py_index (length b) (vy c)) as [i|]; simpl.
  2:{ split; [discriminate | intros [p [H _]]; discriminate]. }
  destruct (nth_error b i) as [row|] eqn:Er; simpl.
  2:{ split; [discriminate | intros [p [H _]]; discriminate]. }
  destruct (py_index (length row) (vx c)) as [j|]; simpl.
  2:{ split; [discriminate | intros [p [H _]]; discriminate]. }
  split.
  - destruct (nth_error row j) as [a|] eqn:Ea; [|discriminate].
    intros H; inversion H; subst. exists (i, j); simpl. rewrite Er. auto.
  - intros [p [Hp Hc]]. inversion Hp; subst; simpl in Hc.
    rewrite Er in Hc. rewrite Hc. reflexivity.
Qed.

Lemma locate_cell {A} (b : Board A) c p :
  locate b c = Some p -> exists v, cell b p = Some v.
Proof.
  unfold locate, cell.
  destruct (py_index (length b) (vy c)) as [i|]; [|discriminate].
  destruct (nth_error b i) as [row|] eqn:Er; [|discriminate].
  destruct (py_index (length row) (vx c)) as [j|] eqn:Ej; [|discriminate].
  intros H; inversion H; subst; simpl. rewrite Er.
  apply py_index_lt in Ej.
  destruct (nth_error row j) eqn:E; [eauto|].
  apply nth_error_None in E; lia.
Qed.

Lemma board_get_located {A} (b : Board A) c p :
  locate b c = Some p -> exists v, board_get b c = Ok v /\ cell b p = Some v.
Proof.
  intros H. destruct (locate_cell _ _ _ H) as [v Hv].
  exists v; split; [|assumption]. apply board_get_Ok; eauto.
Qed.

Lemma board_get_none {A} (b : Board A) c :
  locate b c = None -> board_get b c = Raise IndexError.
Proof.
  unfold board_get, locate, getitem, bind.
  destruct (py_index (length b) (vy c)) as [i|]; [|reflexivity].
  destruct (nth_error b i) as [row|] eqn:Er; [|reflexivity].
  destruct (py_index (length row) (vx c)) as [j|]; [discriminate|reflexivity].
Qed.

Lemma board_set_located {A} (b : Board A) c p v :
  locate b c = Some p -> board_set b c v = Ok (set_cell b p v).
Proof.
  unfold board_set, locate, set_cell, getitem, setitem, bind.
  destruct (py_index (length b) (vy c)) as [i|]; [|discriminate].
  destruct (nth_error b i) as [row|] eqn:Er; [|discriminate].
  destruct (py_index (length row) (vx c)) as [j|]; [|discriminate].
  intros H; inversion H; subst; simpl. rewrite Er. reflexivity.
Qed.

Lemma board_set_Ok {A} (b : Board A) c v b' :
  board_set b c v = Ok b' ->
  exists p, locate b c = Some p /\ b' = set_cell b p v.
Proof.
  intros H. destruct (locate b c) as [p|] eqn:E.
  - rewrite (board_set_located _ _ _ _ E) in H. inversion H. eauto.
  - exfalso. revert H E.
    unfold board_set, locate, getitem, setitem, bind.
    destruct (py_index (length b) (vy c)) as [i|]; [|discriminate].
    destruct (nth_error b i) as [row|] eqn:Er; [|discriminate].
    destruct (py_index (length row) (vx c)) as [j|]; discriminate.
Qed.

Lemma cell_set_cell_eq {A} (b : Board A) p v old :
  cell b p = Some old -> cell (set_cell b p v) p = Some v.
Proof.
  destruct p as [i j]. unfold cell, set_cell; simpl.
  destruct (nth_error b i) as [row|] eqn:Er; [|discriminate].
  intros Hj.
  assert (Hi : (i < length b)%nat) by (apply nth_error_Some; congruence).
  rewrite nth_error_set_nth_eq by assumption.
  apply nth_error_set_nth_eq. apply nth_error_Some; congruence.
Qed.

Lemma cell_set_cell_neq {A} (b : Board A) p p' v :
  p' <> p -> cell (set_cell b p v) p' = cell b p'.
Proof.
  destruct p as [i j], p' as [i' j']. unfold cell, set_cell; simpl.
  intros Hne.
  destruct (nth_error b i) as [row|] eqn:Er; [|reflexivity].
  destruct (Nat.eq_dec i' i) as [->|Hi].
  - assert (Hlt : (i < length b)%nat) by (apply nth_error_Some; congruence).
    rewrite nth_error_set_nth_eq by assumption. rewrite Er.
    apply nth_error_set_nth_neq. congruence.
  - rewrite nth_error_set_nth_neq by assumption. reflexivity.
Qed.

Lemma set_cell_length {A} (b : Board A) p v :
  length (set_cell b p v) = length b.
Proof.
  unfold set_cell. destruct (nth_error b (fst p)); [apply set_nth_length | reflexivity].
Qed.

Lemma set_cell_row_length {A} (b : Board A) p v i :
  option_map (@length A) (nth_error (set_cell b p v) i)
  = option_map (@length A) (nth_error b i).
Proof.
  unfold set_cell. destruct (nth_error b (fst p)) as [row|] eqn:Er; [|reflexivity].
  destruct (Nat.eq_dec i (fst p)) as [->|Hi].
  - assert (Hlt : (fst p < length b)%nat) by (apply nth_error_Some; congruence).
    rewrite nth_error_set_nth_eq by assumption. rewrite Er. simpl.
    rewrite set_nth_length. reflexivity.
  - rewrite nth_error_set_nth_neq by assumption. reflexivity.
Qed.

Lemma locate_set_cell {A} (b : Board A) p v c :
  locate (set_cell b p v) c = locate b c.
Proof.
  unfold locate. rewrite set_cell_length.
  destruct (py_index (length b) (vy c)) as [i|]; [|reflexivity].
  pose proof (set_cell_row_length b p v i) as H.
  destruct (nth_error (set_cell b p v) i) as [r1|], (nth_error b i) as [r2|];
    simpl in H; try discriminate; [|reflexivity].
  inversion H as [H1]. rewrite H1. reflexivity.
Qed.

Lemma dims_set_cell {A} (b : Board A) p v h w :
  dims b h w -> dims (set_cell b p v) h w.
Proof.
  intros [Hh Hw]. split.
  - rewrite set_cell_length. assumption.
  - apply Forall_forall. intros row Hin.
    apply In_nth_error in Hin as [i Hi].
    pose proof (set_cell_row_length b p v i) as H. rewrite Hi in H. simpl in H.
    destruct (nth_error b i) as [r2|] eqn:E2; simpl in H; [|discriminate].
    inversion H as [H1]. rewrite H1.
    rewrite Forall_forall in Hw. apply Hw. eapply nth_error_In; eauto.
Qed.

Lemma locate_nonneg {A} (b : Board A) c p :
  0 <= vx c -> 0 <= vy c -> locate b c = Some p -> p = pos c.
Proof.
  intros Hx Hy. unfold locate, pos, py_index.
  destruct ((0 <=? vy c) && (vy c <? Z.of_nat (length b))) eqn:E1.
  - destruct (nth_error b (Z.to_nat (vy c))) as [row|]; [|discriminate].
    destruct ((0 <=? vx c) && (vx c <? Z.of_nat (length row))) eqn:E2.
    + intros H; inversion H; reflexivity.
    + replace (vx c <? 0) with false by (symmetry; apply Z.ltb_ge; lia).
      simpl. discriminate.
  - replace (vy c <? 0) with false by (symmetry; apply Z.ltb_ge; lia).
    simpl. discriminate.
Qed.

Lemma locate_in_bounds {A} (b : Board A) c h w :
  dims b h w -> in_bounds c h w -> locate b c = Some (pos c).
Proof.
  intros [Hh Hw] [Hx Hy]. unfold locate, pos.
  rewrite py_index_inb by lia.
  destruct (nth_error b (Z.to_nat (vy c))) as [row|] eqn:Er.
  - rewrite Forall_forall in Hw.
    assert (Hl : Z.of_nat (length row) = w)
      by (apply Hw; eapply nth_error_In; eauto).
    rewrite py_index_inb by lia. reflexivity.
  - apply nth_error_None in Er. lia.
Qed.

Lemma board_get_in_bounds {A} (b : Board A) c h w :
  dims b h w -> in_bounds c h w ->
  exists v, board_get b c = Ok v /\ cell b (pos c) = Some v.
Proof.
  intros Hd Hb. apply board_get_located. eapply locate_in_bounds; eauto.
Qed.

Lemma range_length n : length (range n) = Z.to_nat n.
Proof. unfold range. rewrite length_map, length_seq. reflexivity. Qed.

Lemma In_range i n : In i (range n) <-> 0 <= i < n.
Proof.
  unfold range. rewrite in_map_iff. split.
  - intros [k [<- Hk]]. apply in_seq in Hk. lia.
  - intros H. exists (Z.to_nat i). split; [lia|]. apply in_seq. lia.
Qed.

Lemma new_board_dims {A} (d : A) h w :
  0 <= h -> 0 <= w -> dims (new_board d h w) h w.
Proof.
  intros Hh Hw. unfold new_board, dims. split.
  - rewrite length_map, range_length. lia.
  - apply Forall_forall. intros row Hin. apply in_map_iff in Hin as [i [<- _]].
    rewrite length_map, range_length. lia.
Qed.

Lemma new_board_cell {A} (d : A) h w p v :
  cell (new_board d h w) p = Some v -> v = d.
Proof.
  unfold cell, new_board. intros H.
  destruct (nth_error _ (fst p)) as [row|] eqn:Er; [|discriminate].
  apply nth_error_In in Er. apply in_map_iff in Er as [i [<- _]].
  apply nth_error_In in H. apply in_map_iff in H as [j [<- _]]. reflexivity.
Qed.

Lemma square_in_board_dims {A} (b : Board A) c h w :
  dims b h w -> 0 < h ->
  exists r, square_in_board c b = Ok r /\ (r = true <-> in_bounds c h w).
Proof.
  intros [Hh Hw] Hpos. unfold square_in_board.
  destruct (getitem_located b 0 O) as [row0 [Hg Hn]].
  { apply py_index_inb. lia. }
  rewrite Hg; simpl. eexists; split; [reflexivity|].
  rewrite Forall_forall in Hw.
  assert (Hl : Z.of_nat (length row0) = w)
    by (apply Hw; eapply nth_error_In; eauto).
  unfold in_bounds. rewrite !andb_true_iff, !Z.leb_le, !Z.ltb_lt. lia.
Qed.

(** ** The heap *)

Lemma upd_other h r u r' : r' <> r -> upd h r u r' = h r'.
Proof. unfold upd. intros H. apply Nat.eqb_neq in H. rewrite H. reflexivity. Qed.

Lemma ships_upd_ships h t l r :
  ships (upd h t (set_ships (h t) l) r) = if Nat.eqb r t then l else ships (h r).
Proof. unfold upd. destruct (Nat.eqb r t); reflexivity. Qed.

Lemma board_upd_board h t b r :
  board (upd h t (set_board (h t) b) r) = if Nat.eqb r t then b else board (h r).
Proof. unfold upd. destruct (Nat.eqb r t); reflexivity. Qed.

Lemma knowledge_upd_knowledge h t k r :
  knowledge (upd h t (set_knowledge (h t) k) r)
  = if Nat.eqb r t then k else knowledge (h r).
Proof. unfold upd. destruct (Nat.eqb r t); reflexivity. Qed.

Lemma ships_upd_board h t b r :
  ships (upd h t (set_board (h t) b) r) = ships (h r).
Proof.
  unfold upd. destruct (Nat.eqb r t) eqn:E; [|reflexivity].
  apply Nat.eqb_eq in E; subst; reflexivity.
Qed.

Lemma ships_upd_knowledge h t k r :
  ships (upd h t (set_knowledge (h t) k) r) = ships (h r).
Proof.
  unfold upd. destruct (Nat.eqb r t) eqn:E; [|reflexivity].
  apply Nat.eqb_eq in E; subst; reflexivity.
Qed.

Lemma board_upd_ships h t l r :
  board (upd h t (set_ships (h t) l) r) = board (h r).
Proof.
  unfold upd. destruct (Nat.eqb r t) eqn:E; [|reflexivity].
  apply Nat.eqb_eq in E; subst; reflexivity.
Qed.

Lemma board_upd_knowledge h t k r :
  board (upd h t (set_knowledge (h t) k) r) = board (h r).
Proof.
  unfold upd. destruct (Nat.eqb r t) eqn:E; [|reflexivity].
  apply Nat.eqb_eq in E; subst; reflexivity.
Qed.

Lemma knowledge_upd_ships h t l r :
  knowledge (upd h t (set_ships (h t) l) r) = knowledge (h r).
Proof.
  unfold upd. destruct (Nat.eqb r t) eqn:E; [|reflexivity].
  apply Nat.eqb_eq in E; subst; reflexivity.
Qed.

Lemma knowledge_upd_board h t b r :
  knowledge (upd h t (set_board (h t) b) r) = knowledge (h r).
Proof.
  unfold upd. destruct (Nat.eqb r t) eqn:E; [|reflexivity].
  apply Nat.eqb_eq in E; subst; reflexivity.
Qed.

Create Rewrite HintDb heap.
#[export] Hint Rewrite ships_upd_ships board_upd_board knowledge_upd_knowledge
  ships_upd_board ships_upd_knowledge board_upd_ships board_upd_knowledge
  knowledge_upd_ships knowledge_upd_board : heap.

(** ** Shot resolution, case by case *)

Lemma K_eqb_UNKNOWN k :
  KnowledgeSquareState.eqb k KnowledgeSquareState.UNKNOWN = true
  <-> k = KnowledgeSquareState.UNKNOWN.
Proof. destruct k; simpl; split; congruence. Qed.

Lemma fire_missile_fail c s t h pk kv :
  locate (knowledge (h s)) c = Some pk ->
  cell (knowledge (h s)) pk = Some kv ->
  kv <> KnowledgeSquareState.UNKNOWN ->
  fire_missile c s t h = Ok (FireResult.FAIL, h).
Proof.
  intros Hl Hc Hk. unfold fire_missile.
  assert (Hg : board_get (knowledge (h s)) c = Ok kv) by (apply board_get_Ok; eauto).
  rewrite Hg; simpl.
  destruct (KnowledgeSquareState.eqb kv KnowledgeSquareState.UNKNOWN) eqn:E.
  - apply K_eqb_UNKNOWN in E. contradiction.
  - reflexivity.
Qed.

Lemma fire_missile_shot c s t h pk pb :
  locate (knowledge (h s)) c = Some pk ->
  cell (knowledge (h s)) pk = Some KnowledgeSquareState.UNKNOWN ->
  locate (board (h t)) c = Some pb ->
  exists h',
    fire_missile c s t h = Ok (fst (fst (fst (shot_outcome c (ships (h t))))), h') /\
    shot_heap h h' s t
      (snd (fst (fst (shot_outcome c (ships (h t))))))
      (set_cell (board (h t)) pb (snd (fst (shot_outcome c (ships (h t))))))
      (set_cell (knowledge (h s)) pk (snd (shot_outcome c (ships (h t))))).
Proof.
  intros Hl Hc Hb. unfold fire_missile, shot_outcome.
  assert (Hg : board_get (knowledge (h s)) c = Ok KnowledgeSquareState.UNKNOWN)
    by (apply board_get_Ok; eauto).
  rewrite Hg; simpl.
  destruct (hit_first c (ships (h t))) as [[sk fleet']|]; simpl.
  - autorewrite with heap.
    rewrite (board_set_located _ _ _ _ Hb); simpl.
    autorewrite with heap.
    rewrite (board_set_located _ _ _ _ Hl); simpl.
    eexists; split; [reflexivity|].
    intros r. autorewrite with heap. auto.
  - rewrite (board_set_located _ _ _ _ Hl); simpl.
    autorewrite with heap.
    rewrite (board_set_located _ _ _ _ Hb); simpl.
    eexists; split; [reflexivity|].
    intros r. autorewrite with heap.
    destruct (Nat.eqb r t) eqn:E; [apply Nat.eqb_eq in E; subst|]; auto.
Qed.

Lemma fire_missile_raise_knowledge c s t h :
  locate (knowledge (h s)) c = None ->
  fire_missile c s t h = Raise IndexError.
Proof.
  intros H. unfold fire_missile. rewrite (board_get_none _ _ H). reflexivity.
Qed.

Lemma board_set_none {A} (b : Board A) c v :
  locate b c = None -> board_set b c v = Raise IndexError.
Proof.
  intros H. destruct (board_set b c v) as [b'|e] eqn:E.
  - apply board_set_Ok in E as [p [Hp _]]. congruence.
  - revert E. unfold board_set, getitem, setitem, bind.
    destruct (py_index (length b) (vy c)); [|congruence].
    destruct (nth_error b n); [|congruence].
    destruct (py_index (length l) (vx c)); [|congruence].
    destruct (py_index (length b) (vy c)); congruence.
Qed.

(** Every call that returns is one of the two cases above. *)
Lemma fire_missile_inv c s t h r h' :
  fire_missile c s t h = Ok (r, h') ->
  exists pk kv,
    locate (knowledge (h s)) c = Some pk /\
    cell (knowledge (h s)) pk = Some kv /\
    ((kv <> KnowledgeSquareState.UNKNOWN /\ r = FireResult.FAIL /\ h' = h) \/
     (kv = KnowledgeSquareState.UNKNOWN /\
      exists pb,
        locate (board (h t)) c = Some pb /\
        r = fst (fst (fst (shot_outcome c (ships (h t))))) /\
        shot_heap h h' s t
          (snd (fst (fst (shot_outcome c (ships (h t))))))
          (set_cell (board (h t)) pb (snd (fst (shot_outcome c (ships (h t))))))
          (set_cell (knowledge (h s)) pk (snd (shot_outcome c (ships (h t))))))).
Proof.
  intros H.
  destruct (locate (knowledge (h s)) c) as [pk|] eqn:El.
  2:{ rewrite (fire_missile_raise_knowledge _ _ _ _ El) in H. discriminate. }
  destruct (locate_cell _ _ _ El) as [kv Hkv].
  exists pk, kv. split; [reflexivity|]. split; [assumption|].
  destruct kv.
  - right. split; [reflexivity|].
    destruct (locate (board (h t)) c) as [pb|] eqn:Eb.
    + destruct (fire_missile_shot c s t h pk pb El Hkv Eb) as [h2 [Hf Hs]].
      rewrite Hf in H. inversion H; subst. eauto.
    + exfalso. revert H. unfold fire_missile.
      assert (Hg : board_get (knowledge (h s)) c = Ok KnowledgeSquareState.UNKNOWN)
        by (apply board_get_Ok; eauto).
      rewrite Hg; simpl.
      destruct (hit_first c (ships (h t))) as [[sk fleet']|]; simpl.
      * autorewrite with heap.
        rewrite (board_set_none _ _ _ Eb). discriminate.
      * rewrite (board_set_located _ _ _ _ El); simpl.
        autorewrite with heap.
        rewrite (board_set_none _ _ _ Eb). discriminate.
  - left. rewrite (fire_missile_fail c s t h pk _ El Hkv) in H by discriminate.
    inversion H; subst. repeat split; discriminate.
  - left. rewrite (fire_missile_fail c s t h pk _ El Hkv) in H by discriminate.
    inversion H; subst. repeat split; discriminate.
Qed.

(** ** The scan of the target's fleet *)

Lemma hit_first_none c l :
  (forall s, In s l -> ~ In c (squares s)) -> hit_first c l = None.
Proof.
  induction l as [|s l IH]; simpl; intros H; [reflexivity|].
  assert (Hs : Vec2_in c (squares s) = false)
    by (apply Vec2_in_false; apply H; left; reflexivity).
  rewrite Hs, IH; [reflexivity|]. intros s' Hin; apply H; right; assumption.
Qed.

Lemma hit_first_split c pre s post :
  (forall s0, In s0 pre -> ~ In c (squares s0)) ->
  In c (squares s) ->
  hit_first c (pre ++ s :: post)
  = Some (fst (Ship_hit s), pre ++ snd (Ship_hit s) :: post).
Proof.
  induction pre as [|a pre IH]; simpl; intros Hpre Hin.
  - apply Vec2_in_In in Hin. rewrite Hin. destruct (Ship_hit s); reflexivity.
  - assert (Ha : Vec2_in c (squares a) = false)
      by (apply Vec2_in_false; apply Hpre; left; reflexivity).
    rewrite Ha, IH; auto.
Qed.

Lemma hit_first_inv_some c l sk l' :
  hit_first c l = Some (sk, l') ->
  exists pre s post,
    l = pre ++ s :: post /\
    (forall s0, In s0 pre -> ~ In c (squares s0)) /\
    In c (squares s) /\
    sk = fst (Ship_hit s) /\ l' = pre ++ snd (Ship_hit s) :: post.
Proof.
  revert sk l'. induction l as [|a l IH]; simpl; intros sk l' H; [discriminate|].
  destruct (Vec2_in c (squares a)) eqn:Ea.
  - destruct (Ship_hit a) as [sk0 a'] eqn:Eh. inversion H; subst.
    exists [], a, l. rewrite Eh; simpl. repeat split; auto.
    apply Vec2_in_In; assumption.
  - destruct (hit_first c l) as [[sk0 l0]|]; [|discriminate].
    inversion H; subst.
    destruct (IH _ _ eq_refl) as [pre [s [post [-> [Hpre [Hin [-> ->]]]]]]].
    exists (a :: pre), s, post. repeat split; auto.
    intros s0 [<-|Hs0]; [apply Vec2_in_false; assumption | auto].
Qed.

Lemma Ship_hit_fields s :
  hits (snd (Ship_hit s)) = hits s + 1 /\
  squares (snd (Ship_hit s)) = squares s /\
  fst (Ship_hit s) = (hits s + 1 =? Z.of_nat (length (squares s))) /\
  sunk (snd (Ship_hit s))
  = (if hits s + 1 =? Z.of_nat (length (squares s)) then true else sunk s).
Proof.
  unfold Ship_hit.
  destruct (hits s + 1 =? Z.of_nat (length (squares s))); simpl; auto.
Qed.

Lemma User_fields_eq (u v : User) :
  ships u = ships v -> board u = board v -> knowledge u = knowledge v -> u = v.
Proof. destruct u, v; simpl; intros; subst; reflexivity. Qed.

Lemma shot_outcome_marks c fleet :
  let o := shot_outcome c fleet in
  (fst (fst (fst o)) = FireResult.MISS /\ snd (fst (fst o)) = fleet /\
   snd (fst o) = SquareState.MISS /\ snd o = KnowledgeSquareState.MISS) \/
  ((fst (fst (fst o)) = FireResult.HIT \/ fst (fst (fst o)) = FireResult.SUNK) /\
   snd (fst o) = SquareState.HIT /\ snd o = KnowledgeSquareState.HIT /\
   exists pre ship post,
     fleet = pre ++ ship :: post /\
     (forall s0, In s0 pre -> ~ In c (squares s0)) /\
     In c (squares ship) /\
     snd (fst (fst o)) = pre ++ snd (Ship_hit ship) :: post /\
     (fst (fst (fst o)) = FireResult.SUNK <-> fst (Ship_hit ship) = true)).
Proof.
  unfold shot_outcome. destruct (hit_first c fleet) as [[sk l']|] eqn:E; simpl.
  - right. apply hit_first_inv_some in E
      as [pre [s [post [-> [Hpre [Hin [-> ->]]]]]]].
    repeat split.
    + destruct (fst (Ship_hit s)); auto.
    + exists pre, s, post. repeat split; auto.
      * destruct (fst (Ship_hit s)); [reflexivity | discriminate].
      * intros ->. reflexivity.
  - left. auto.
Qed.

(** ** Claims on a single shot *)

(** C1: at an in-bounds coordinate whose cell on the shooter's knowledge
    board is unknown, a shot that finds a ship of the target on [c] (the
    first such ship of the list) increments that ship's hit counter,
    marks the target's board cell and the shooter's knowledge cell as
    hit, and returns Sunk when the incremented counter equals the number
    of squares of the ship and Hit otherwise; a shot that finds no ship
    marks both cells as miss and returns Miss. *)
Theorem fire_missile_unknown_square c s t h bh bw :
  dims (knowledge (h s)) bh bw ->
  dims (board (h t)) bh bw ->
  in_bounds c bh bw ->
  board_get (knowledge (h s)) c = Ok KnowledgeSquareState.UNKNOWN ->
  (forall pre ship post,
      ships (h t) = pre ++ ship :: post ->
      (forall s0, In s0 pre -> ~ In c (squares s0)) ->
      In c (squares ship) ->
      exists h' ship',
        fire_missile c s t h
        = Ok (if hits ship + 1 =? Z.of_nat (length (squares ship))
              then FireResult.SUNK else FireResult.HIT, h') /\
        ships (h' t) = pre ++ ship' :: post /\
        hits ship' = hits ship + 1 /\
        squares ship' = squares ship /\
        sunk ship'
        = (if hits ship + 1 =? Z.of_nat (length (squares ship))
           then true else sunk ship) /\
        board_get (board (h' t)) c = Ok SquareState.HIT /\
        board_get (knowledge (h' s)) c = Ok KnowledgeSquareState.HIT)
  /\
  ((forall ship, In ship (ships (h t)) -> ~ In c (squares ship)) ->
   exists h',
     fire_missile c s t h = Ok (FireResult.MISS, h') /\
     ships (h' t) = ships (h t) /\
     board_get (board (h' t)) c = Ok SquareState.MISS /\
     board_get (knowledge (h' s)) c = Ok KnowledgeSquareState.MISS).
Proof.
  intros Hdk Hdb Hin Hget.
  pose proof (locate_in_bounds _ _ _ _ Hdk Hin) as Hlk.
  pose proof (locate_in_bounds _ _ _ _ Hdb Hin) as Hlb.
  assert (Hck : cell (knowledge (h s)) (pos c) = Some KnowledgeSquareState.UNKNOWN).
  { apply board_get_Ok in Hget as [p [Hp Hc]]. congruence. }
  destruct (locate_cell _ _ _ Hlb) as [old Hold].
  destruct (fire_missile_shot c s t h _ _ Hlk Hck Hlb) as [h' [Hf Hs]].
  split.
  - intros pre ship post Hsplit Hpre Hship.
    unfold shot_outcome in Hf, Hs.
    rewrite Hsplit, (hit_first_split c pre ship post Hpre Hship) in Hf, Hs.
    simpl in Hf, Hs.
    destruct (Ship_hit_fields ship) as [Hh [Hsq [Hfst Hsk]]].
    exists h', (snd (Ship_hit ship)). rewrite Hfst in Hf.
    destruct (Hs t) as [Ht1 [Ht2 _]]. destruct (Hs s) as [_ [_ Hs3]].
    rewrite Nat.eqb_refl in Ht1, Ht2, Hs3.
    repeat split; auto.
    + rewrite Ht2. apply board_get_Ok. exists (pos c). split.
      * rewrite locate_set_cell. assumption.
      * eapply cell_set_cell_eq; eauto.
    + rewrite Hs3. apply board_get_Ok. exists (pos c). split.
      * rewrite locate_set_cell. assumption.
      * eapply cell_set_cell_eq; eauto.
  - intros Hnone. unfold shot_outcome in Hf, Hs.
    rewrite (hit_first_none c _ Hnone) in Hf, Hs. simpl in Hf, Hs.
    exists h'. destruct (Hs t) as [Ht1 [Ht2 _]]. destruct (Hs s) as [_ [_ Hs3]].
    rewrite Nat.eqb_refl in Ht1, Ht2, Hs3.
    repeat split; auto.
    + rewrite Ht2. apply board_get_Ok. exists (pos c). split.
      * rewrite locate_set_cell. assumption.
      * eapply cell_set_cell_eq; eauto.
    + rewrite Hs3. apply board_get_Ok. exists (pos c). split.
      * rewrite locate_set_cell. assumption.
      * eapply cell_set_cell_eq; eauto.
Qed.

(** C2: at an in-bounds coordinate whose cell on the shooter's knowledge
    board is not unknown, the call returns [FAIL] and the heap it leaves
    is the heap it found: no board, no ship of any user has changed.  So
    a second shot of the same shooter at a coordinate is always of this
    kind. *)
Theorem fire_missile_already_fired c s t h bh bw :
  dims (knowledge (h s)) bh bw ->
  in_bounds c bh bw ->
  (board_get (knowledge (h s)) c <> Ok KnowledgeSquareState.UNKNOWN ->
   fire_missile c s t h = Ok (FireResult.FAIL, h))
  /\
  (forall r h' t',
      fire_missile c s t h = Ok (r, h') ->
      fire_missile c s t' h' = Ok (FireResult.FAIL, h')).
Proof.
  intros Hdk Hin.
  pose proof (locate_in_bounds _ _ _ _ Hdk Hin) as Hlk.
  destruct (board_get_located _ _ _ Hlk) as [kv [Hg Hc]].
  split.
  - intros Hne. eapply fire_missile_fail; eauto.
    intros ->. apply Hne. assumption.
  - intros r h' t' Hf.
    apply fire_missile_inv in Hf as [pk [kv' [Hlk' [Hck [[Hk [_ ->]]|[-> Hshot]]]]]].
    + eapply fire_missile_fail; eauto.
    + destruct Hshot as [pb [_ [_ Hs]]].
      destruct (Hs s) as [_ [_ Hs3]]. rewrite Nat.eqb_refl in Hs3.
      eapply (fire_missile_fail c s t' h' pk).
      * rewrite Hs3, locate_set_cell. assumption.
      * rewrite Hs3. eapply cell_set_cell_eq; eauto.
      * destruct (shot_outcome_marks c (ships (h t)))
          as [[_ [_ [_ E]]]|[_ [_ [E _]]]]; rewrite E; discriminate.
Qed.

(** C10: on boards of [bh] rows and [bw] columns, a shot at a coordinate
    with [0 <= x < bw] and [0 <= y < bh] never indexes out of range: the
    call returns a result.  The function has no bounds check of its own:
    at a coordinate beyond Python's index range the same call raises
    [IndexError]. *)
Theorem fire_missile_total_in_bounds c s t h bh bw :
  dims (knowledge (h s)) bh bw ->
  dims (board (h t)) bh bw ->
  (in_bounds c bh bw -> exists r h', fire_missile c s t h = Ok (r, h'))
  /\
  (vx c < - bw \/ bw <= vx c \/ vy c < - bh \/ bh <= vy c ->
   fire_missile c s t h = Raise IndexError).
Proof.
  intros Hdk Hdb. split.
  - intros Hin.
    pose proof (locate_in_bounds _ _ _ _ Hdk Hin) as Hlk.
    pose proof (locate_in_bounds _ _ _ _ Hdb Hin) as Hlb.
    destruct (locate_cell _ _ _ Hlk) as [kv Hkv].
    destruct kv.
    + destruct (fire_missile_shot c s t h _ _ Hlk Hkv Hlb) as [h' [Hf _]]. eauto.
    + exists FireResult.FAIL, h. eapply fire_missile_fail; eauto. discriminate.
    + exists FireResult.FAIL, h. eapply fire_missile_fail; eauto. discriminate.
  - intros Hout. apply fire_missile_raise_knowledge.
    destruct Hdk as [Hh Hw]. unfold locate.
    destruct (py_index (length (knowledge (h s))) (vy c)) as [i|] eqn:Ei; [|reflexivity].
    destruct (nth_error (knowledge (h s)) i) as [row|] eqn:Er; [|reflexivity].
    destruct (py_index (length row) (vx c)) as [j|] eqn:Ej; [|reflexivity].
    exfalso.
    rewrite Forall_forall in Hw.
    assert (Hl : Z.of_nat (length row) = bw)
      by (apply Hw; eapply nth_error_In; eauto).
    assert (py_index (length (knowledge (h s))) (vy c) <> None) as N1 by congruence.
    assert (py_index (length row) (vx c) <> None) as N2 by congruence.
    rewrite py_index_none_iff in N1, N2. lia.
Qed.


(** ** Fleet placement *)

Lemma squares_candidates origin orientation length :
  map (fun i => extend origin (Orientation.value orientation) i) (range length)
  = candidates origin orientation length.
Proof. reflexivity. Qed.

Lemma all_in_board_dims {A} (b : Board A) sqs bh bw :
  dims b bh bw -> 0 < bh ->
  exists r, all_in_board sqs b = Ok r /\
            (r = true <-> forall c, In c sqs -> in_bounds c bh bw).
Proof.
  intros Hd Hpos. induction sqs as [|c sqs IH]; simpl.
  - exists true. split; [reflexivity|]. split; [intros _ c []|reflexivity].
  - destruct (square_in_board_dims b c bh bw Hd Hpos) as [r [Hr Hiff]].
    rewrite Hr; simpl. destruct r.
    + destruct IH as [r' [Hr' Hiff']]. exists r'. split; [assumption|].
      rewrite Hiff'. split.
      * intros H c' [<-|Hin]; [apply Hiff; reflexivity | auto].
      * intros H c' Hin. apply H; right; assumption.
    + exists false. split; [reflexivity|]. split; [discriminate|].
      intros H. apply Hiff. apply H. left; reflexivity.
Qed.

Lemma overlaps_true sqs fleet :
  overlaps sqs fleet = true <->
  exists c ship, In c sqs /\ In ship fleet /\ In c (squares ship).
Proof.
  unfold overlaps. rewrite existsb_exists. split.
  - intros [ship [Hship Hlen]]. apply Z.ltb_lt in Hlen.
    destruct (filter (fun s => Vec2_in s (squares ship)) sqs) as [|c l] eqn:E;
      [simpl in Hlen; lia|].
    assert (Hc : In c (filter (fun s => Vec2_in s (squares ship)) sqs))
      by (rewrite E; left; reflexivity).
    apply filter_In in Hc as [Hc1 Hc2]. apply Vec2_in_In in Hc2.
    exists c, ship. auto.
  - intros [c [ship [Hc [Hship Hin]]]]. exists ship. split; [assumption|].
    apply Z.ltb_lt.
    assert (Hf : In c (filter (fun s => Vec2_in s (squares ship)) sqs))
      by (apply filter_In; split; [assumption | apply Vec2_in_In; assumption]).
    destruct (filter (fun s => Vec2_in s (squares ship)) sqs); [contradiction|].
    simpl. lia.
Qed.

Lemma overlaps_false sqs fleet :
  overlaps sqs fleet = false <->
  forall c ship, In c sqs -> In ship fleet -> ~ In c (squares ship).
Proof.
  split.
  - intros H c ship Hc Hs Hin.
    assert (overlaps sqs fleet = true) by (apply overlaps_true; eauto).
    congruence.
  - intros H. destruct (overlaps sqs fleet) eqn:E; [|reflexivity].
    apply overlaps_true in E as [c [ship [Hc [Hs Hin]]]].
    exfalso. eapply H; eauto.
Qed.

Lemma position_eq_dec (p q : nat * nat) : {p = q} + {p <> q}.
Proof. decide equality; apply Nat.eq_dec. Defined.

Lemma mark_ship_cells sqs : forall (b : MainBoard) bh bw,
  dims b bh bw ->
  (forall c, In c sqs -> in_bounds c bh bw) ->
  exists b',
    mark_ship sqs b = Ok b' /\ dims b' bh bw /\
    (forall p, In p (map pos sqs) -> cell b' p = Some SquareState.SHIP) /\
    (forall p, ~ In p (map pos sqs) -> cell b' p = cell b p).
Proof.
  induction sqs as [|c sqs IH]; intros b bh bw Hd Hin; simpl.
  - exists b. split; [reflexivity|]. split; [assumption|].
    split; [intros p [] | reflexivity].
  - assert (Hc : in_bounds c bh bw) by (apply Hin; left; reflexivity).
    pose proof (locate_in_bounds _ _ _ _ Hd Hc) as Hl.
    rewrite (board_set_located _ _ _ _ Hl); simpl.
    destruct (IH (set_cell b (pos c) SquareState.SHIP) bh bw) as [b' [Hm [Hd' [Hs Ho]]]].
    { apply dims_set_cell; assumption. }
    { intros c' Hc'. apply Hin; right; assumption. }
    exists b'. split; [assumption|]. split; [assumption|]. split.
    + intros p [<-|Hp]; [|auto].
      destruct (in_dec position_eq_dec (pos c) (map pos sqs)) as [Hi|Hn]; [auto|].
      rewrite Ho by assumption.
      destruct (locate_cell _ _ _ Hl) as [old Hold].
      eapply cell_set_cell_eq; eauto.
    + intros p Hp. rewrite Ho by (intros H; apply Hp; right; assumption).
      apply cell_set_cell_neq. intros ->. apply Hp; left; reflexivity.
Qed.

Lemma in_map_pos c sqs bh bw :
  in_bounds c bh bw -> (forall d, In d sqs -> in_bounds d bh bw) ->
  In (pos c) (map pos sqs) <-> In c sqs.
Proof.
  intros [Hx Hy] Hall. split.
  - intros H. apply in_map_iff in H as [d [Hp Hd]].
    destruct (Hall d Hd) as [Hdx Hdy].
    assert (d = c) by (apply pos_inj; lia || assumption). subst; assumption.
  - apply in_map.
Qed.

(** C3: [new_valid_ship] computes the squares [origin + i * direction],
    [i = 0 .. length - 1]; when one of them is outside the owner's board
    or is a square of a ship the owner has already placed, it returns
    [None] and leaves the heap as it found it; otherwise it returns a new
    ship of exactly these squares, appended to the owner's ships, and has
    set exactly these cells of the owner's board to [SHIP]. *)
Theorem new_valid_ship_spec origin orientation length owner h bh bw :
  dims (board (h owner)) bh bw ->
  0 < bh ->
  let cands := candidates origin orientation length in
  let blocked :=
    exists c, In c cands /\
              (~ in_bounds c bh bw \/
               exists ship, In ship (ships (h owner)) /\ In c (squares ship)) in
  (blocked -> new_valid_ship origin orientation length owner h = Ok (None, h))
  /\
  (~ blocked ->
   exists h',
     new_valid_ship origin orientation length owner h
     = Ok (Some (mkShip 0 false cands), h') /\
     ships (h' owner) = ships (h owner) ++ [mkShip 0 false cands] /\
     dims (board (h' owner)) bh bw /\
     (forall c, in_bounds c bh bw ->
        board_get (board (h' owner)) c
        = if Vec2_in c cands then Ok SquareState.SHIP
          else board_get (board (h owner)) c) /\
     knowledge (h' owner) = knowledge (h owner) /\
     (forall u, u <> owner -> h' u = h u)).
Proof.
  intros Hd Hpos cands blocked.
  unfold new_valid_ship. rewrite squares_candidates. fold cands.
  destruct (all_in_board_dims (board (h owner)) cands bh bw Hd Hpos)
    as [inb [Hinb Hiff]].
  rewrite Hinb; simpl. unfold blocked. split.
  - intros [c [Hc [Hout|[ship [Hship Hin]]]]].
    + destruct inb; [|reflexivity].
      exfalso. apply Hout. apply Hiff; auto.
    + destruct inb; [|reflexivity]. simpl.
      assert (Ho : overlaps cands (ships (h owner)) = true)
        by (apply overlaps_true; eauto).
      rewrite Ho. reflexivity.
  - intros Hnb.
    assert (Hall : forall c, In c cands -> in_bounds c bh bw).
    { intros c Hc.
      destruct (Z_lt_dec (vx c) 0) as [?|?]; [exfalso; apply Hnb; exists c; split;
        [assumption | left; unfold in_bounds; lia]|].
      destruct (Z_lt_dec (vx c) bw) as [?|?]; [|exfalso; apply Hnb; exists c; split;
        [assumption | left; unfold in_bounds; lia]].
      destruct (Z_lt_dec (vy c) 0) as [?|?]; [exfalso; apply Hnb; exists c; split;
        [assumption | left; unfold in_bounds; lia]|].
      destruct (Z_lt_dec (vy c) bh) as [?|?]; [|exfalso; apply Hnb; exists c; split;
        [assumption | left; unfold in_bounds; lia]].
      unfold in_bounds; lia. }
    assert (inb = true) as -> by (apply Hiff; assumption). simpl.
    assert (Ho : overlaps cands (ships (h owner)) = false).
    { apply overlaps_false. intros c ship Hc Hs Hin. apply Hnb.
      exists c. split; [assumption|]. right. eauto. }
    rewrite Ho. autorewrite with heap. unfold Ship_init; simpl.
    destruct (mark_ship_cells cands (board (h owner)) bh bw Hd Hall)
      as [b' [Hm [Hd' [Hs Hother]]]].
    rewrite Hm; simpl. eexists. split; [reflexivity|].
    autorewrite with heap. rewrite !Nat.eqb_refl.
    split; [reflexivity|]. split; [assumption|]. split; [|split].
    + intros c Hc.
      pose proof (locate_in_bounds _ _ _ _ Hd' Hc) as Hl'.
      pose proof (locate_in_bounds _ _ _ _ Hd Hc) as Hl.
      destruct (Vec2_in c cands) eqn:E.
      * apply board_get_Ok. exists (pos c). split; [assumption|].
        apply Hs. apply in_map. apply Vec2_in_In. assumption.
      * apply Vec2_in_false in E.
        assert (Hn : ~ In (pos c) (map pos cands))
          by (rewrite (in_map_pos c cands bh bw Hc Hall); assumption).
        destruct (board_get_located _ _ _ Hl) as [v [Hg Hv]].
        rewrite Hg. apply board_get_Ok. exists (pos c). split; [assumption|].
        rewrite Hother by assumption. assumption.
    + reflexivity.
    + intros u Hu. rewrite !upd_other by assumption. reflexivity.
Qed.

(** ** Counting the cells of a fleet *)

Lemma count_ship_cons row b : count_ship (row :: b) = count_row row + count_ship b.
Proof. reflexivity. Qed.

Lemma count_row_set_nth row j v :
  nth_error row j = Some v -> v <> SquareState.SHIP ->
  count_row (set_nth row j SquareState.SHIP) = count_row row + 1.
Proof.
  unfold count_row. revert j.
  induction row as [|a row IH]; intros [|j]; cbn [set_nth nth_error filter];
    intros H Hv; try discriminate.
  - inversion H; subst.
    destruct v; cbn [SquareState.eqb length]; try congruence; lia.
  - specialize (IH j H Hv).
    destruct (SquareState.eqb SquareState.SHIP a); cbn [length]; lia.
Qed.

Lemma count_ship_set_nth b i row row' :
  nth_error b i = Some row ->
  count_ship (set_nth b i row') = count_ship b - count_row row + count_row row'.
Proof.
  revert i. induction b as [|r b IH]; intros [|i]; simpl; intros H;
    try discriminate.
  - inversion H; subst. fold (count_ship b). fold (count_row row).
    fold (count_row row'). lia.
  - fold (count_ship (set_nth b i row')). fold (count_ship b).
    rewrite (IH i H). lia.
Qed.

Lemma count_ship_set_cell b p v :
  cell b p = Some v -> v <> SquareState.SHIP ->
  count_ship (set_cell b p SquareState.SHIP) = count_ship b + 1.
Proof.
  unfold cell, set_cell. destruct (nth_error b (fst p)) as [row|] eqn:Er;
    [|discriminate].
  intros Hv Hne. rewrite (count_ship_set_nth b (fst p) row _ Er).
  rewrite (count_row_set_nth row (snd p) v Hv Hne). lia.
Qed.

Lemma count_ship_new_board h w :
  count_ship (new_board SquareState.EMPTY h w) = 0.
Proof.
  assert (H : count_row (map (fun _ : Z => SquareState.EMPTY) (range w)) = 0).
  { unfold count_row. induction (range w) as [|j l IH]; [reflexivity|].
    cbn [map filter SquareState.eqb]. assumption. }
  unfold new_board. induction (range h) as [|i l IH]; [reflexivity|].
  cbn [map]. rewrite count_ship_cons, H, IH. reflexivity.
Qed.

Lemma count_mark_ship sqs : forall (b b' : MainBoard) bh bw,
  dims b bh bw ->
  (forall c, In c sqs -> in_bounds c bh bw) ->
  NoDup sqs ->
  (forall c, In c sqs -> cell b (pos c) <> Some SquareState.SHIP) ->
  mark_ship sqs b = Ok b' ->
  count_ship b' = count_ship b + Z.of_nat (length sqs).
Proof.
  induction sqs as [|c sqs IH]; intros b b' bh bw Hd Hin Hnd Hfree Hm.
  - simpl in Hm. inversion Hm; subst. simpl. lia.
  - simpl in Hm.
    assert (Hc : in_bounds c bh bw) by (apply Hin; left; reflexivity).
    pose proof (locate_in_bounds _ _ _ _ Hd Hc) as Hl.
    rewrite (board_set_located _ _ _ _ Hl) in Hm; simpl in Hm.
    destruct (locate_cell _ _ _ Hl) as [old Hold].
    inversion Hnd as [|? ? Hnotin Hnd']; subst.
    rewrite (IH _ b' bh bw (dims_set_cell b (pos c) SquareState.SHIP bh bw Hd)); auto.
    + rewrite (count_ship_set_cell b (pos c) old Hold).
      * simpl length. lia.
      * intros ->. apply (Hfree c); [left; reflexivity | assumption].
    + intros d Hd0. apply Hin. right; assumption.
    + intros d Hd0. rewrite cell_set_cell_neq.
      * apply Hfree. right; assumption.
      * intros Hp. apply Hnotin.
        destruct Hc as [? ?]. destruct (Hin d (or_intror Hd0)) as [? ?].
        assert (d = c) by (apply pos_inj; lia || assumption). subst; assumption.
Qed.

Lemma range_NoDup n : NoDup (range n).
Proof.
  unfold range. apply NoDup_map_NoDup_ForallPairs; [|apply seq_NoDup].
  intros x y _ _ H. lia.
Qed.

Lemma candidates_NoDup origin orientation length :
  NoDup (candidates origin orientation length).
Proof.
  unfold candidates. apply NoDup_map_NoDup_ForallPairs; [|apply range_NoDup].
  intros i j _ _ H. unfold vec_add, vec_scalar_multiply in H.
  pose proof (f_equal vx H) as H1. pose proof (f_equal vy H) as H2.
  destruct orientation; cbn [Orientation.value vx vy] in H1, H2; lia.
Qed.

Lemma candidates_length origin orientation len :
  length (candidates origin orientation len) = Z.to_nat len.
Proof. unfold candidates. rewrite length_map. apply range_length. Qed.

Lemma fleet_squares_app l1 l2 :
  fleet_squares (l1 ++ l2) = fleet_squares l1 ++ fleet_squares l2.
Proof. unfold fleet_squares. rewrite map_app, concat_app. reflexivity. Qed.

Lemma In_fleet_squares c fleet :
  In c (fleet_squares fleet) <-> exists ship, In ship fleet /\ In c (squares ship).
Proof.
  unfold fleet_squares. rewrite in_concat. split.
  - intros [l [Hl Hc]]. apply in_map_iff in Hl as [ship [<- Hs]]. eauto.
  - intros [ship [Hs Hc]]. exists (squares ship). split; [|assumption].
    apply in_map. assumption.
Qed.

Lemma total_length_fleet_squares fleet :
  total_length fleet = Z.of_nat (length (fleet_squares fleet)).
Proof.
  induction fleet as [|s fleet IH]; simpl; [reflexivity|].
  unfold fleet_squares in *. simpl. rewrite length_app. rewrite IH. lia.
Qed.

Lemma NoDup_fleet_disjoint fleet :
  NoDup (fleet_squares fleet) -> disjoint_fleet fleet.
Proof.
  induction fleet as [|s fleet IH]; intros Hnd i j si sj c Hij Hi Hj Hci Hcj.
  - destruct i; discriminate.
  - unfold fleet_squares in Hnd. simpl in Hnd.
    fold (fleet_squares fleet) in Hnd.
    pose proof (NoDup_app_remove_l _ _ Hnd) as Hnd'.
    assert (Hcross : forall d, In d (squares s) -> ~ In d (fleet_squares fleet)).
    { clear - Hnd. induction (squares s) as [|a l IHl]; intros d Hd; [contradiction|].
      simpl in Hnd. inversion Hnd as [|? ? Hn Hnd2]; subst.
      destruct Hd as [<-|Hd].
      - intros H. apply Hn. apply in_or_app. right; assumption.
      - apply IHl; assumption. }
    destruct i as [|i], j as [|j]; simpl in Hi, Hj.
    + congruence.
    + inversion Hi; subst. apply (Hcross c Hci).
      apply In_fleet_squares. exists sj. split; [eapply nth_error_In; eauto | assumption].
    + inversion Hj; subst. apply (Hcross c Hcj).
      apply In_fleet_squares. exists si. split; [eapply nth_error_In; eauto | assumption].
    + apply (IH Hnd' i j si sj c); auto.
Qed.

(** ** Sequences of placements *)

Lemma new_valid_ship_cases origin orientation length owner h bh bw :
  dims (board (h owner)) bh bw ->
  0 < bh ->
  let cands := candidates origin orientation length in
  new_valid_ship origin orientation length owner h = Ok (None, h)
  \/
  ((forall c, In c cands -> in_bounds c bh bw) /\
   (forall c ship, In c cands -> In ship (ships (h owner)) -> ~ In c (squares ship)) /\
   exists b' h',
     mark_ship cands (board (h owner)) = Ok b' /\
     new_valid_ship origin orientation length owner h
     = Ok (Some (Ship_init cands), h') /\
     forall u,
       ships (h' u)
       = (if Nat.eqb u owner then ships (h owner) ++ [Ship_init cands]
          else ships (h u)) /\
       board (h' u) = (if Nat.eqb u owner then b' else board (h u)) /\
       knowledge (h' u) = knowledge (h u)).
Proof.
  intros Hd Hpos cands.
  unfold new_valid_ship. rewrite squares_candidates. fold cands.
  destruct (all_in_board_dims (board (h owner)) cands bh bw Hd Hpos)
    as [inb [Hinb Hiff]].
  rewrite Hinb; simpl. destruct inb; simpl; [|left; reflexivity].
  destruct (overlaps cands (ships (h owner))) eqn:Ho; [left; reflexivity|].
  right.
  assert (Hall : forall c, In c cands -> in_bounds c bh bw) by (apply Hiff; reflexivity).
  split; [assumption|]. split; [apply overlaps_false; assumption|].
  autorewrite with heap.
  destruct (mark_ship_cells cands (board (h owner)) bh bw Hd Hall)
    as [b' [Hm _]].
  rewrite Hm; simpl. exists b'. eexists. split; [reflexivity|].
  split; [reflexivity|].
  intros u. autorewrite with heap. auto.
Qed.

Lemma placed_ok_step origin orientation length owner h r h' bh bw :
  placed_ok (h owner) bh bw -> 0 < bh ->
  new_valid_ship origin orientation length owner h = Ok (r, h') ->
  placed_ok (h' owner) bh bw.
Proof.
  intros [Hd [Hnd [Hin [Hship Hcnt]]]] Hpos Hnv.
  destruct (new_valid_ship_cases origin orientation length owner h bh bw Hd Hpos)
    as [Hnone|[Hall [Hdisj [b' [h2 [Hm [Hsome Hf]]]]]]].
  - rewrite Hnone in Hnv. inversion Hnv; subst.
    exact (conj Hd (conj Hnd (conj Hin (conj Hship Hcnt)))).
  - rewrite Hsome in Hnv. inversion Hnv; subst. clear Hnv.
    destruct (Hf owner) as [Hs [Hb Hk]]. rewrite Nat.eqb_refl in Hs, Hb.
    set (cands := candidates origin orientation length) in *.
    destruct (mark_ship_cells cands (board (h owner)) bh bw Hd Hall)
      as [b2 [Hm2 [Hd2 [Hset Hkeep]]]].
    rewrite Hm in Hm2. inversion Hm2; subst b2. clear Hm2.
    unfold placed_ok. rewrite Hs, Hb, fleet_squares_app.
    assert (Hone : fleet_squares [Ship_init cands] = cands).
    { unfold fleet_squares; simpl. apply app_nil_r. }
    rewrite Hone.
    split; [assumption|]. split; [|split; [|split]].
    + apply NoDup_app; [assumption | apply candidates_NoDup |].
      intros c Hc Hc'. apply In_fleet_squares in Hc as [ship [Hsh Hcs]].
      apply (Hdisj c ship); assumption.
    + intros c Hc. apply in_app_or in Hc as [Hc|Hc]; auto.
    + intros c Hc Hcell. apply in_or_app.
      destruct (in_dec Vec2_eq_dec c cands) as [Hi|Hn]; [right; assumption|].
      left. apply Hship; [assumption|].
      rewrite <- Hkeep; [assumption|].
      rewrite (in_map_pos c cands bh bw Hc Hall). assumption.
    + rewrite (count_mark_ship cands (board (h owner)) b' bh bw Hd Hall
                 (candidates_NoDup _ _ _)); [| |assumption].
      * rewrite Hcnt, !total_length_fleet_squares, fleet_squares_app, Hone,
          length_app. lia.
      * intros c Hc Hcell. apply Hship in Hcell; [|auto].
        apply In_fleet_squares in Hcell as [ship [Hsh Hcs]].
        apply (Hdisj c ship); assumption.
Qed.

Lemma new_valid_ship_returns origin orientation length owner h bh bw :
  dims (board (h owner)) bh bw -> 0 < bh ->
  exists r h', new_valid_ship origin orientation length owner h = Ok (r, h').
Proof.
  intros Hd Hpos.
  destruct (new_valid_ship_cases origin orientation length owner h bh bw Hd Hpos)
    as [Hnone|[_ [_ [b' [h2 [_ [Hsome _]]]]]]]; eauto.
Qed.

Lemma place_ships_placed_ok owner reqs : forall h bh bw,
  placed_ok (h owner) bh bw -> 0 < bh ->
  exists h', place_ships owner reqs h = Ok h' /\ placed_ok (h' owner) bh bw.
Proof.
  induction reqs as [|[[origin orientation] len] reqs IH]; intros h bh bw Hok Hpos.
  - exists h. split; [reflexivity | assumption].
  - cbn [place_ships].
    destruct (new_valid_ship_returns origin orientation len owner h bh bw)
      as [r [h1 Hnv]]; [apply Hok | assumption |].
    rewrite Hnv; cbn [bind].
    apply IH; [|assumption].
    eapply placed_ok_step; eauto.
Qed.

Lemma User_init_placed_ok : placed_ok User_init BOARD_HEIGHT BOARD_WIDTH.
Proof.
  unfold placed_ok, User_init; cbn [board ships].
  split; [apply new_board_dims; unfold BOARD_HEIGHT, BOARD_WIDTH; lia|].
  split; [constructor|]. split; [intros c []|]. split.
  - intros c _ H. apply new_board_cell in H. discriminate.
  - rewrite count_ship_new_board. reflexivity.
Qed.

(** C7: whatever placements are asked of an owner just created, and
    before anybody fires, the calls return, no two ships of the owner
    share a coordinate, and the owner's board has as many cells in state
    [SHIP] as the placed ships have squares in total. *)
Theorem placement_phase_fleet owner reqs :
  exists h,
    place_ships owner reqs fresh = Ok h /\
    disjoint_fleet (ships (h owner)) /\
    count_ship (board (h owner)) = total_length (ships (h owner)).
Proof.
  destruct (place_ships_placed_ok owner reqs fresh BOARD_HEIGHT BOARD_WIDTH)
    as [h [Hp [_ [Hnd [_ [_ Hcnt]]]]]].
  - apply User_init_placed_ok.
  - reflexivity.
  - exists h. split; [assumption|]. split; [|assumption].
    apply NoDup_fleet_disjoint. assumption.
Qed.

(** ** The invariant of a game *)

Lemma filter_length_le {A} (f g : A -> bool) (l : list A) :
  (forall a, In a l -> f a = true -> g a = true) ->
  (length (filter f l) <= length (filter g l))%nat.
Proof.
  induction l as [|a l IH]; intros H; simpl; [lia|].
  assert (IH' : (length (filter f l) <= length (filter g l))%nat)
    by (apply IH; intros b Hb; apply H; right; assumption).
  destruct (f a) eqn:Ef.
  - rewrite (H a (or_introl eq_refl) Ef). simpl. lia.
  - destruct (g a); simpl; lia.
Qed.

Lemma filter_length_lt {A} (f g : A -> bool) (l : list A) c :
  (forall a, In a l -> f a = true -> g a = true) ->
  In c l -> f c = false -> g c = true ->
  (length (filter f l) + 1 <= length (filter g l))%nat.
Proof.
  induction l as [|a l IH]; intros H Hc Hf Hg; [contradiction|]. simpl.
  assert (Hle : (length (filter f l) <= length (filter g l))%nat)
    by (apply filter_length_le; intros b Hb; apply H; right; assumption).
  destruct Hc as [->|Hc].
  - rewrite Hf, Hg. simpl. lia.
  - assert (IH' : (length (filter f l) + 1 <= length (filter g l))%nat)
      by (apply IH; auto; intros b Hb; apply H; right; assumption).
    destruct (f a) eqn:Ef.
    + rewrite (H a (or_introl eq_refl) Ef). simpl. lia.
    + destruct (g a); simpl; lia.
Qed.

Lemma filter_length_bound {A} (f : A -> bool) (l : list A) :
  (length (filter f l) <= length l)%nat.
Proof.
  induction l as [|a l IH]; simpl; [lia|]. destruct (f a); simpl; lia.
Qed.

Lemma cell_set_cell_none {A} (b : Board A) p v :
  cell b p = None -> cell (set_cell b p v) p = None.
Proof.
  unfold cell, set_cell.
  destruct (nth_error b (fst p)) as [row|] eqn:Er; intros H.
  - assert (Hlt : (fst p < length b)%nat) by (apply nth_error_Some; congruence).
    rewrite nth_error_set_nth_eq by assumption.
    apply nth_error_None. rewrite set_nth_length. apply nth_error_None. assumption.
  - rewrite Er. reflexivity.
Qed.

Lemma is_unknown_set_cell kb p v c :
  v <> KnowledgeSquareState.UNKNOWN ->
  is_unknown (set_cell kb p v) c = true -> is_unknown kb c = true.
Proof.
  intros Hv. unfold is_unknown.
  destruct (position_eq_dec (pos c) p) as [<-|Hne].
  - destruct (cell kb (pos c)) as [old|] eqn:E.
    + rewrite (cell_set_cell_eq kb (pos c) v old E). destruct v; congruence.
    + rewrite (cell_set_cell_none kb (pos c) v E). discriminate.
  - rewrite cell_set_cell_neq by assumption. auto.
Qed.

Lemma ship_ok_mono kb p v ship :
  v <> KnowledgeSquareState.UNKNOWN ->
  ship_ok kb ship -> ship_ok (set_cell kb p v) ship.
Proof.
  intros Hv [H0 [Hle [Hs He]]]. repeat split; auto.
  unfold unknown_count in *.
  pose proof (filter_length_le (is_unknown (set_cell kb p v)) (is_unknown kb)
                (squares ship)
                (fun a _ => is_unknown_set_cell kb p v a Hv)).
  lia.
Qed.

Lemma ship_ok_hit kb c v ship :
  v <> KnowledgeSquareState.UNKNOWN ->
  ship_ok kb ship ->
  In c (squares ship) ->
  cell kb (pos c) = Some KnowledgeSquareState.UNKNOWN ->
  ship_ok (set_cell kb (pos c) v) (snd (Ship_hit ship)) /\
  hits ship + 1 <= Z.of_nat (length (squares ship)).
Proof.
  intros Hv [H0 [Hle [Hs He]]] Hin Hc.
  destruct (Ship_hit_fields ship) as [Hh [Hsq [_ Hsk]]].
  assert (Hlt : (length (filter (is_unknown (set_cell kb (pos c) v)) (squares ship)) + 1
                 <= length (filter (is_unknown kb) (squares ship)))%nat).
  { apply (filter_length_lt _ _ _ c); auto.
    - intros a _. apply is_unknown_set_cell; assumption.
    - unfold is_unknown. rewrite (cell_set_cell_eq kb (pos c) v _ Hc).
      destruct v; congruence.
    - unfold is_unknown. rewrite Hc. reflexivity. }
  unfold unknown_count in *.
  assert (Hne : squares ship <> []) by (intros E; rewrite E in Hin; contradiction).
  split; [|lia].
  unfold ship_ok, unknown_count. rewrite Hh, Hsq, Hsk. repeat split; try lia.
  - intros _. specialize (Hs Hne).
    destruct (hits ship + 1 =? Z.of_nat (length (squares ship))) eqn:E; [reflexivity|].
    rewrite Hs. apply Z.eqb_neq in E. apply Z.eqb_neq. lia.
  - intros E. contradiction.
Qed.

Lemma fleet_squares_hit pre ship post :
  fleet_squares (pre ++ snd (Ship_hit ship) :: post)
  = fleet_squares (pre ++ ship :: post).
Proof.
  unfold fleet_squares. rewrite !map_app. simpl.
  destruct (Ship_hit_fields ship) as [_ [Hsq _]]. rewrite Hsq. reflexivity.
Qed.

Lemma shooter_of_pair s t :
  (s = player /\ t = ai) \/ (s = ai /\ t = player) ->
  shooter_of t = s /\ s <> t.
Proof. intros [[-> ->]|[-> ->]]; split; (reflexivity || discriminate). Qed.

Lemma Ship_init_ok kb sqs : ship_ok kb (Ship_init sqs).
Proof.
  unfold ship_ok, Ship_init, unknown_count; cbn [hits sunk squares].
  pose proof (filter_length_bound (is_unknown kb) sqs).
  repeat split; try lia.
  intros Hne. symmetry. apply Z.eqb_neq.
  destruct sqs; [congruence | cbn [length]; lia].
Qed.

Lemma game_ok_fresh : game_ok fresh.
Proof.
  intros u. unfold fresh, User_init; simpl.
  repeat split; try (apply new_board_dims; unfold BOARD_HEIGHT, BOARD_WIDTH; lia);
    try constructor; try contradiction.
Qed.

Lemma game_ok_place origin orientation length owner h r h' :
  game_ok h ->
  new_valid_ship origin orientation length owner h = Ok (r, h') ->
  game_ok h'.
Proof.
  intros Hok Hnv.
  destruct (Hok owner) as [Hd [_ [Hnd [Hin _]]]].
  destruct (new_valid_ship_cases origin orientation length owner h
              BOARD_HEIGHT BOARD_WIDTH Hd eq_refl)
    as [Hnone|[Hall [Hdisj [b' [h2 [Hm [Hsome Hf]]]]]]].
  - rewrite Hnone in Hnv. inversion Hnv; subst. assumption.
  - rewrite Hsome in Hnv. inversion Hnv; subst. clear Hnv.
    set (cands := candidates origin orientation length) in *.
    destruct (mark_ship_cells cands (board (h owner)) _ _ Hd Hall)
      as [b2 [Hm2 [Hd2 _]]].
    rewrite Hm in Hm2. inversion Hm2; subst b2. clear Hm2.
    intros u. destruct (Hok u) as [Hdu [Hku [Hndu [Hinu Hsu]]]].
    destruct (Hf u) as [Hs [Hb Hk]].
    destruct (Hf (shooter_of u)) as [_ [_ Hk']].
    rewrite Hs, Hb, Hk, Hk'.
    destruct (Nat.eqb u owner) eqn:E.
    + apply Nat.eqb_eq in E; subst u.
      assert (Hone : fleet_squares [Ship_init cands] = cands).
      { unfold fleet_squares; simpl. apply app_nil_r. }
      rewrite fleet_squares_app, Hone.
      split; [assumption|]. split; [assumption|]. split; [|split].
      * apply NoDup_app; [assumption | apply candidates_NoDup |].
        intros c Hc Hc'. apply In_fleet_squares in Hc as [ship [Hsh Hcs]].
        apply (Hdisj c ship); assumption.
      * intros c Hc. apply in_app_or in Hc as [Hc|Hc]; auto.
      * apply Forall_app. split; [assumption|].
        constructor; [apply Ship_init_ok | constructor].
    + exact (conj Hdu (conj Hku (conj Hndu (conj Hinu Hsu)))).
Qed.

Lemma game_ok_fire c s t h r h' :
  game_ok h ->
  (s = player /\ t = ai) \/ (s = ai /\ t = player) ->
  fire_missile c s t h = Ok (r, h') ->
  game_ok h'.
Proof.
  intros Hok Hpair Hf.
  destruct (shooter_of_pair s t Hpair) as [Hsh Hst].
  apply fire_missile_inv in Hf as [pk [kv [Hlk [Hck [[_ [_ ->]]|[-> Hshot]]]]]];
    [assumption|].
  destruct Hshot as [pb [Hlb [_ Hs]]].
  set (o := shot_outcome c (ships (h t))) in *.
  assert (Hvk : snd o <> KnowledgeSquareState.UNKNOWN).
  { destruct (shot_outcome_marks c (ships (h t)))
      as [[_ [_ [_ E]]]|[_ [_ [E _]]]]; fold o in E; rewrite E; discriminate. }
  intros u. destruct (Hok u) as [Hdu [Hku [Hndu [Hinu Hsu]]]].
  destruct (Hs u) as [Hu1 [Hu2 Hu3]].
  destruct (Hs (shooter_of u)) as [_ [_ Hk]].
  rewrite Hu1, Hu2, Hu3, Hk.
  split. { destruct (Nat.eqb u t) eqn:E; [|assumption].
           apply Nat.eqb_eq in E; subst u. apply dims_set_cell; assumption. }
  split. { destruct (Nat.eqb u s) eqn:E; [|assumption].
           apply Nat.eqb_eq in E; subst u. apply dims_set_cell; assumption. }
  destruct (Nat.eqb u t) eqn:E.
  - apply Nat.eqb_eq in E; subst u. rewrite Hsh, Nat.eqb_refl.
    rewrite Hsh in Hsu.
    destruct (shot_outcome_marks c (ships (h t)))
      as [[_ [E2 _]]|[_ [_ [_ [pre [ship [post [Efl [_ [Hin [E2 _]]]]]]]]]]];
      fold o in E2; rewrite E2.
    + split; [assumption|]. split; [assumption|].
      eapply Forall_impl; [|exact Hsu]. intros a Ha. apply ship_ok_mono; assumption.
    + rewrite fleet_squares_hit, <- Efl.
      split; [assumption|]. split; [assumption|].
      rewrite Efl in Hsu. apply Forall_app in Hsu as [Hpre Hrest].
      inversion Hrest as [|? ? Hship Hpost]; subst.
      assert (Hcb : in_bounds c BOARD_HEIGHT BOARD_WIDTH).
      { apply Hinu. rewrite Efl. apply In_fleet_squares. exists ship.
        split; [apply in_or_app; right; left; reflexivity | assumption]. }
      assert (pk = pos c) as ->.
      { destruct Hcb as [? ?]. eapply locate_nonneg; eauto; lia. }
      apply Forall_app. split.
      * eapply Forall_impl; [|exact Hpre]. intros a Ha. apply ship_ok_mono; assumption.
      * constructor.
        -- apply ship_ok_hit; assumption.
        -- eapply Forall_impl; [|exact Hpost]. intros a Ha.
           apply ship_ok_mono; assumption.
  - split; [assumption|]. split; [assumption|].
    destruct (Nat.eqb (shooter_of u) s) eqn:E2; [|assumption].
    apply Nat.eqb_eq in E2. rewrite E2 in Hsu.
    eapply Forall_impl; [|exact Hsu]. intros a Ha. apply ship_ok_mono; assumption.
Qed.

Lemma reachable_game_ok h : reachable h -> game_ok h.
Proof.
  induction 1 as [|h origin orientation len owner r h' _ IH Hnv
                   |h c s t r h' _ IH Hpair Hf].
  - apply game_ok_fresh.
  - eapply game_ok_place; eauto.
  - eapply game_ok_fire; eauto.
Qed.

Lemma ship_ok_facts kb ship :
  ship_ok kb ship ->
  hits ship <= Z.of_nat (length (squares ship)) /\
  (sunk ship = true -> hits ship = Z.of_nat (length (squares ship))) /\
  (squares ship <> [] ->
   sunk ship = (hits ship =? Z.of_nat (length (squares ship)))).
Proof.
  intros [H0 [Hle [Hs He]]]. unfold unknown_count in Hle.
  split; [lia|]. split; [|assumption].
  intros Hsk. destruct (squares ship) as [|a l] eqn:E.
  - rewrite He in Hsk by reflexivity. discriminate.
  - rewrite Hs in Hsk by discriminate. apply Z.eqb_eq in Hsk. assumption.
Qed.

(** ** Win detection *)

Lemma reachable_place_ships owner reqs : forall h h',
  reachable h -> place_ships owner reqs h = Ok h' -> reachable h'.
Proof.
  induction reqs as [|[[origin orientation] len] reqs IH]; intros h h' Hr Hp.
  - simpl in Hp. inversion Hp; subst; assumption.
  - cbn [place_ships] in Hp.
    destruct (new_valid_ship origin orientation len owner h) as [[r h1]|e] eqn:E;
      [|discriminate].
    cbn [bind] in Hp. eapply IH; [|exact Hp]. eapply reach_place; eauto.
Qed.



Lemma all_sunk_true fleet :
  all_sunk fleet = true <-> forall ship, In ship fleet -> sunk ship = true.
Proof. unfold all_sunk. apply forallb_forall. Qed.



(** ** One ship through a sequence of shots *)

Lemma nth_error_middle {A} (pre post : list A) a :
  nth_error (pre ++ a :: post) (length pre) = Some a.
Proof.
  rewrite nth_error_app2 by lia. rewrite Nat.sub_diag. reflexivity.
Qed.









(** ** Coordinate decoding *)


Lemma ord_lower_upper c :
  65 <= ord c <= 90 -> ord (lower_char c) = ord c + 32.
Proof.
  intros H. unfold lower_char.
  replace ((65 <=? ord c) && (ord c <=? 90)) with true
    by (symmetry; apply andb_true_iff; split; lia).
  cbn [orb]. unfold ord at 1. rewrite N_ascii_embedding by lia. lia.
Qed.

Lemma ord_lower_keep c :
  97 <= ord c <= 122 -> ord (lower_char c) = ord c.
Proof.
  intros H. unfold lower_char.
  replace ((65 <=? ord c) && (ord c <=? 90)) with false
    by (symmetry; apply andb_false_iff; right; lia).
  replace ((192 <=? ord c) && (ord c <=? 222)) with false
    by (symmetry; apply andb_false_iff; left; lia).
  reflexivity.
Qed.



(** ** Random search *)

Lemma randint_range a b rng :
  a <= b ->
  exists v, randint a b rng = Ok (v, rng_skip 1 rng) /\ a <= v <= b.
Proof.
  intros H. unfold randint.
  replace (b <? a) with false by (symmetry; apply Z.ltb_ge; lia).
  eexists; split; [reflexivity|].
  pose proof (Z.mod_pos_bound (rng O) (b - a + 1)). lia.
Qed.

Lemma random_square_loop_bounded {A} (eqb : A -> A -> bool) (b : Board A)
  bh bw matching n :
  dims b bh bw -> 0 < bh -> 0 < bw ->
  forall rng,
    random_square_loop eqb n b bw bh matching rng = Raise (SystemExit 1)
    \/
    exists c rng' k v,
      random_square_loop eqb n b bw bh matching rng = Ok (c, rng') /\
      in_bounds c bh bw /\
      board_get b c = Ok v /\ eqb v matching = true /\
      (k <= 2 * n)%nat /\
      forall m, rng' m = rng (k + m)%nat.
Proof.
  intros Hd Hh Hw. induction n as [|n IH]; intros rng.
  - left. reflexivity.
  - cbn [random_square_loop].
    destruct (randint_range 0 (bw - 1) rng) as [cx [Hx Hxr]]; [lia|].
    rewrite Hx; cbn [bind].
    destruct (randint_range 0 (bh - 1) (rng_skip 1 rng)) as [cy [Hy Hyr]]; [lia|].
    rewrite Hy; cbn [bind].
    assert (Hin : in_bounds (mkVec2 cx cy) bh bw) by (unfold in_bounds; simpl; lia).
    destruct (board_get_in_bounds b _ bh bw Hd Hin) as [v [Hg _]].
    rewrite Hg; cbn [bind].
    destruct (eqb v matching) eqn:Ev.
    + right. exists (mkVec2 cx cy), (rng_skip 1 (rng_skip 1 rng)), 2%nat, v.
      repeat split; auto; try (simpl; lia); try apply Hin.
    + destruct (IH (rng_skip 1 (rng_skip 1 rng)))
        as [Hexit|[c [rng' [k [v' [Hl [Hc [Hg' [Hv' [Hk Hr]]]]]]]]]].
      * left. assumption.
      * right. exists c, rng', (2 + k)%nat, v'.
        repeat split; auto; try lia; try apply Hc;
          try (intros m; rewrite Hr; unfold rng_skip; f_equal; lia).
Qed.

Lemma choice_members rng :
  exists o, choice Orientation.members rng = Ok (o, rng_skip 1 rng).
Proof.
  unfold choice, Orientation.members. cbn [length].
  pose proof (Z.mod_pos_bound (rng O) (Z.of_nat 4) eq_refl) as Hb.
  destruct (nth_error [Orientation.N; Orientation.E; Orientation.S; Orientation.W]
              (Z.to_nat (rng O mod Z.of_nat 4))) as [o|] eqn:E; [eauto|].
  apply nth_error_None in E. simpl in E. lia.
Qed.





(** ** The scenarios of the spec, run on the model *)

Example scenario_results :
  match fire_seq ai player scenario_shots scenario_placed with
  | Ok (tr, _) => map snd tr
  | Raise _ => []
  end
  = [FireResult.HIT; FireResult.SUNK; FireResult.FAIL; FireResult.MISS].
Proof. reflexivity. Qed.

Example scenario_overlap :
  fleet_after
    (h <- place_ships player
            [(mkVec2 0 0, Orientation.S, 2); (mkVec2 0 1, Orientation.S, 2)] fresh ;;
     Ok (tt, h)) player
  = [mkShip 0 false [mkVec2 0 0; mkVec2 0 1]].
Proof. reflexivity. Qed.

Example test_fleet_cells :
  count_ship (board (test_heap player)) = 17 /\
  total_length (ships (test_heap player)) = 17.
Proof. split; reflexivity. Qed.

Example decode_upper_case :
  decode_notation "J9" (board User_init) = Ok (Some (mkVec2 9 9)) /\
  decode_notation "k0" (board User_init) = Ok None /\
  decode_notation "ax" (board User_init) = Ok None /\
  decode_notation "abc" (board User_init) = Ok None.
Proof. repeat split; reflexivity. Qed.

Example negative_index_wraps :
  match fire_missile (mkVec2 (-1) (-1)) player ai fresh with
  | Ok (r, h) => Some (r, board_get (knowledge (h player)) (mkVec2 9 9))
  | Raise _ => None
  end
  = Some (FireResult.MISS, Ok KnowledgeSquareState.MISS).
Proof. reflexivity. Qed.

(** ** The claims at concrete inputs *)

Lemma concrete_dims {A} (b : Board A) :
  (Z.of_nat (length b) =? 10) && forallb (fun row => Z.of_nat (length row) =? 10) b = true ->
  dims b 10 10.
Proof.
  intros H. apply andb_true_iff in H as [H1 H2]. split.
  - apply Z.eqb_eq. assumption.
  - apply Forall_forall. intros row Hin.
    rewrite forallb_forall in H2. apply Z.eqb_eq. apply H2. assumption.
Qed.

Lemma concrete_in_bounds c :
  (0 <=? vx c) && (vx c <? 10) && ((0 <=? vy c) && (vy c <? 10)) = true ->
  in_bounds c 10 10.
Proof.
  rewrite !andb_true_iff, !Z.leb_le, !Z.ltb_lt. unfold in_bounds. tauto.
Qed.

(** The opponent's first shot of the scenario, at (1,1), hits the ship
    placed east from (1,1). *)
Lemma fire_missile_unknown_square_witness :
  exists h' ship',
    fire_missile (mkVec2 1 1) ai player scenario_placed = Ok (FireResult.HIT, h') /\
    ships (h' player) = [ship'] /\
    hits ship' = 1 /\
    board_get (board (h' player)) (mkVec2 1 1) = Ok SquareState.HIT /\
    board_get (knowledge (h' ai)) (mkVec2 1 1) = Ok KnowledgeSquareState.HIT.
Proof.
  destruct (fire_missile_unknown_square (mkVec2 1 1) ai player scenario_placed 10 10)
    as [Hhit _].
  - apply concrete_dims. vm_compute. reflexivity.
  - apply concrete_dims. vm_compute. reflexivity.
  - apply concrete_in_bounds. reflexivity.
  - reflexivity.
  - destruct (Hhit [] (mkShip 0 false [mkVec2 1 1; mkVec2 2 1]) [])
      as [h' [ship' [Hf [Hs [Hh [_ [_ [Hb Hk]]]]]]]].
    + reflexivity.
    + intros s0 [].
    + left. reflexivity.
    + exists h', ship'. repeat split; assumption.
Defined.

(** The third shot of the scenario, at (1,1) again, fails and leaves the
    heap as it is. *)
Lemma fire_missile_already_fired_witness :
  board_get (knowledge (scenario_end ai)) (mkVec2 1 1)
  = Ok KnowledgeSquareState.HIT /\
  fire_missile (mkVec2 1 1) ai player scenario_end
  = Ok (FireResult.FAIL, scenario_end).
Proof.
  split; [reflexivity|].
  destruct (fire_missile_already_fired (mkVec2 1 1) ai player scenario_end 10 10)
    as [Hfail _].
  - apply concrete_dims. vm_compute. reflexivity.
  - apply concrete_in_bounds. reflexivity.
  - apply Hfail. discriminate.
Defined.

(** A shot at (3,4) on the fresh boards returns. *)
Lemma fire_missile_total_in_bounds_witness :
  exists r h', fire_missile (mkVec2 3 4) player ai fresh = Ok (r, h').
Proof.
  destruct (fire_missile_total_in_bounds (mkVec2 3 4) player ai fresh 10 10)
    as [Htotal _].
  - apply concrete_dims. vm_compute. reflexivity.
  - apply concrete_dims. vm_compute. reflexivity.
  - apply Htotal. apply concrete_in_bounds. reflexivity.
Defined.


(** The length-5 ship of the spec's scenario, east from (9,9), does not
    fit the board: the placement is refused. *)
Lemma new_valid_ship_spec_witness :
  new_valid_ship (mkVec2 9 9) Orientation.E 5 player fresh = Ok (None, fresh).
Proof.
  destruct (new_valid_ship_spec (mkVec2 9 9) Orientation.E 5 player fresh 10 10)
    as [Hblocked _].
  - apply concrete_dims. vm_compute. reflexivity.
  - reflexivity.
  - apply Hblocked. exists (mkVec2 10 9). split.
    + right. left. reflexivity.
    + left. unfold in_bounds. simpl. lia.
Defined.





(** * Further properties of the program *)

(** ** Boards *)

(** X1: [new_board(default, height, width)] has [max(height, 0)] rows of
    [max(width, 0)] cells, and every cell it has holds [default]; so
    every in-bounds coordinate reads [default]. *)
Theorem new_board_shape {A : Type} (d : A) (h w : Z) :
  dims (new_board d h w) (Z.max 0 h) (Z.max 0 w) /\
  (forall p v, cell (new_board d h w) p = Some v -> v = d) /\
  (forall c, in_bounds c h w -> board_get (new_board d h w) c = Ok d).
Proof.
  assert (Hd : dims (new_board d h w) (Z.max 0 h) (Z.max 0 w)).
  { unfold new_board, dims. split.
    - rewrite length_map, range_length. lia.
    - apply Forall_forall. intros row Hin. apply in_map_iff in Hin as [i [<- _]].
      rewrite length_map, range_length. lia. }
  split; [assumption|]. split; [intros p v; apply new_board_cell|].
  intros c [Hx Hy].
  assert (Hin : in_bounds c (Z.max 0 h) (Z.max 0 w)) by (unfold in_bounds; lia).
  destruct (board_get_in_bounds _ c _ _ Hd Hin) as [v [Hg Hv]].
  apply new_board_cell in Hv. subst v. assumption.
Qed.

Lemma py_index_wrap n i :
  - Z.of_nat n <= i < 0 -> py_index n i = Some (Z.to_nat (i mod Z.of_nat n)).
Proof.
  intros H. unfold py_index.
  replace (0 <=? i) with false by (symmetry; apply Z.leb_gt; lia).
  cbn [andb].
  replace ((i <? 0) && (- Z.of_nat n <=? i)) with true
    by (symmetry; apply andb_true_iff; split; [apply Z.ltb_lt | apply Z.leb_le]; lia).
  f_equal. f_equal.
  apply (Z.mod_unique i (Z.of_nat n) (-1)); lia.
Qed.

Lemma py_index_range n i :
  - Z.of_nat n <= i < Z.of_nat n ->
  py_index n i = Some (Z.to_nat (i mod Z.of_nat n)).
Proof.
  intros H. destruct (Z_lt_dec i 0) as [Hneg|Hpos].
  - apply py_index_wrap. lia.
  - rewrite py_index_inb by lia. rewrite Z.mod_small by lia. reflexivity.
Qed.

Lemma locate_wrap {A} (b : Board A) c bh bw :
  dims b bh bw ->
  - bw <= vx c < bw -> - bh <= vy c < bh ->
  locate b c = Some (pos (wrap c bh bw)) /\ in_bounds (wrap c bh bw) bh bw.
Proof.
  intros [Hh Hw] Hx Hy. unfold locate, pos, wrap; cbn [vx vy].
  rewrite py_index_range by lia. rewrite Hh.
  assert (Hmy : 0 <= vy c mod bh < bh) by (apply Z.mod_pos_bound; lia).
  assert (Hmx : 0 <= vx c mod bw < bw) by (apply Z.mod_pos_bound; lia).
  destruct (nth_error b (Z.to_nat (vy c mod bh))) as [row|] eqn:Er.
  - rewrite Forall_forall in Hw.
    assert (Hl : Z.of_nat (length row) = bw)
      by (apply Hw; eapply nth_error_In; eauto).
    rewrite py_index_range by lia. rewrite Hl.
    split; [reflexivity | unfold in_bounds; cbn [vx vy]; lia].
  - apply nth_error_None in Er. lia.
Qed.

(** X2: on a board of [bh > 0] rows of [bw] cells [square_in_board]
    returns whether [0 <= x < bw] and [0 <= y < bh]; a square it accepts
    can be read, at its own position; a square it refuses because of a
    negative component Python would still index, from the other end of
    the board.  On the board without rows it raises [IndexError]. *)
Theorem square_in_board_indexable {A : Type} (b : Board A) (c : Vec2) bh bw :
  dims b bh bw -> 0 < bh ->
  exists r,
    square_in_board c b = Ok r /\
    (r = true <-> in_bounds c bh bw) /\
    (r = true -> exists v, board_get b c = Ok v /\ cell b (pos c) = Some v) /\
    (r = false -> - bw <= vx c < bw -> - bh <= vy c < bh ->
     exists v, board_get b c = Ok v /\ cell b (pos (wrap c bh bw)) = Some v /\
               wrap c bh bw <> c) /\
    square_in_board c (@nil (list A)) = Raise IndexError.
Proof.
  intros Hd Hpos.
  destruct (square_in_board_dims b c bh bw Hd Hpos) as [r [Hr Hiff]].
  exists r. split; [assumption|]. split; [assumption|]. split; [|split].
  - intros Ht. apply Hiff in Ht. apply (board_get_in_bounds b c bh bw Hd Ht).
  - intros Hf Hx Hy.
    destruct (locate_wrap b c bh bw Hd Hx Hy) as [Hl Hin].
    destruct (board_get_located _ _ _ Hl) as [v [Hg Hv]].
    exists v. split; [assumption|]. split; [assumption|].
    intros E. rewrite E in Hin. apply Hiff in Hin. congruence.
  - reflexivity.
Qed.

(** ** Shots at negative coordinates *)

(** X3: [fire_missile] reads a coordinate with a negative component the
    way Python indexes: on boards of [bh] rows of [bw] cells, against a
    fleet whose squares have no negative component, a shot at [c] with
    [-bw <= x < bw], [-bh <= y < bh] and [x < 0] or [y < 0] never hits:
    when the cell it wraps to is unknown to the shooter the result is
    Miss, that cell is marked as a miss on both boards whatever it held,
    the ships are as before, and the shooter's later shot at the wrapped
    square itself fails. *)
Theorem fire_missile_negative_wraps c s t h bh bw :
  dims (knowledge (h s)) bh bw ->
  dims (board (h t)) bh bw ->
  - bw <= vx c < bw -> - bh <= vy c < bh ->
  vx c < 0 \/ vy c < 0 ->
  (forall d, In d (fleet_squares (ships (h t))) -> 0 <= vx d /\ 0 <= vy d) ->
  board_get (knowledge (h s)) (wrap c bh bw) = Ok KnowledgeSquareState.UNKNOWN ->
  exists h',
    fire_missile c s t h = Ok (FireResult.MISS, h') /\
    ships (h' t) = ships (h t) /\
    board_get (board (h' t)) (wrap c bh bw) = Ok SquareState.MISS /\
    board_get (knowledge (h' s)) (wrap c bh bw) = Ok KnowledgeSquareState.MISS /\
    forall t', fire_missile (wrap c bh bw) s t' h' = Ok (FireResult.FAIL, h').
Proof.
  intros Hdk Hdb Hx Hy Hneg Hfleet Hunk.
  destruct (locate_wrap _ c bh bw Hdk Hx Hy) as [Hlk Hin].
  destruct (locate_wrap _ c bh bw Hdb Hx Hy) as [Hlb _].
  pose proof (locate_in_bounds _ _ _ _ Hdk Hin) as Hlk'.
  pose proof (locate_in_bounds _ _ _ _ Hdb Hin) as Hlb'.
  assert (Hck : cell (knowledge (h s)) (pos (wrap c bh bw))
                = Some KnowledgeSquareState.UNKNOWN).
  { apply board_get_Ok in Hunk as [p [Hp Hc]]. congruence. }
  destruct (locate_cell _ _ _ Hlb) as [old Hold].
  destruct (fire_missile_shot c s t h _ _ Hlk Hck Hlb) as [h' [Hf Hs]].
  assert (Hnone : hit_first c (ships (h t)) = None).
  { apply hit_first_none. intros ship Hship Hc.
    destruct (Hfleet c) as [? ?]; [|lia].
    apply In_fleet_squares. eauto. }
  unfold shot_outcome in Hf, Hs. rewrite Hnone in Hf, Hs. simpl in Hf, Hs.
  exists h'. destruct (Hs t) as [Ht1 [Ht2 _]]. destruct (Hs s) as [_ [_ Hs3]].
  rewrite Nat.eqb_refl in Ht1, Ht2, Hs3.
  split; [assumption|]. split; [assumption|].
  assert (Hk' : board_get (knowledge (h' s)) (wrap c bh bw)
                = Ok KnowledgeSquareState.MISS).
  { rewrite Hs3. apply board_get_Ok. exists (pos (wrap c bh bw)). split.
    - rewrite locate_set_cell. assumption.
    - eapply cell_set_cell_eq; eauto. }
  split; [|split; [assumption|]].
  - rewrite Ht2. apply board_get_Ok. exists (pos (wrap c bh bw)). split.
    + rewrite locate_set_cell. assumption.
    + eapply cell_set_cell_eq; eauto.
  - intros t'. apply board_get_Ok in Hk' as [p [Hp Hc]].
    eapply fire_missile_fail; eauto. discriminate.
Qed.

(** ** Ships *)

(** X4: a new ship of [n] squares hit [k] times in a row counts [k]
    hits, whatever [n]; the call that returns [True] is the [n]-th and no
    other, and the ship is sunk from then on: [sunk] holds exactly when
    [1 <= n <= k].  Nothing stops the counter at [n], and a ship without
    squares is never sunk. *)
Theorem hit_times_counts (sq : list Vec2) (k : nat) :
  let n := length sq in
  let flags := fst (hit_times k (Ship_init sq)) in
  let ship := snd (hit_times k (Ship_init sq)) in
  hits ship = Z.of_nat k /\
  squares ship = sq /\
  sunk ship = ((1 <=? n)%nat && (n <=? k)%nat) /\
  flags = map (fun i => Nat.eqb i n) (rev (seq 1 k)).
Proof.
  induction k as [|k IH]; cbn zeta in *.
  - simpl. repeat split. rewrite andb_comm.
    destruct (length sq); reflexivity.
  - cbn [hit_times].
    destruct (hit_times k (Ship_init sq)) as [flags s'] eqn:E.
    cbn [fst snd] in IH. destruct IH as [Hh [Hsq [Hsk Hfl]]].
    unfold Ship_hit. rewrite Hh, Hsq.
    rewrite seq_S, rev_app_distr. cbn [rev app map].
    replace (1 + k)%nat with (S k) by lia.
    destruct (Z.of_nat k + 1 =? Z.of_nat (length sq)) eqn:Eq.
    + apply Z.eqb_eq in Eq. cbn [fst snd hits sunk squares].
      replace (Nat.eqb (S k) (length sq)) with true
        by (symmetry; apply Nat.eqb_eq; lia).
      repeat split; try lia; try congruence.
      symmetry. apply andb_true_iff. split; apply Nat.leb_le; lia.
    + apply Z.eqb_neq in Eq. cbn [fst snd hits sunk squares].
      replace (Nat.eqb (S k) (length sq)) with false
        by (symmetry; apply Nat.eqb_neq; lia).
      repeat split; try lia; try congruence.
      rewrite Hsk.
      destruct (Nat.leb_spec 1 (length sq)), (Nat.leb_spec (length sq) k),
        (Nat.leb_spec (length sq) (S k)); cbn [andb]; try reflexivity; lia.
Qed.

(** ** Random search *)

Lemma random_square_loop_no_match {A} (eqb : A -> A -> bool) (b : Board A)
  bh bw matching n :
  dims b bh bw -> 0 < bh -> 0 < bw ->
  (forall c v, in_bounds c bh bw -> board_get b c = Ok v -> eqb v matching = false) ->
  forall rng, random_square_loop eqb n b bw bh matching rng = Raise (SystemExit 1).
Proof.
  intros Hd Hh Hw Hno. induction n as [|n IH]; intros rng; [reflexivity|].
  cbn [random_square_loop].
  destruct (randint_range 0 (bw - 1) rng) as [cx [Hx Hxr]]; [lia|].
  rewrite Hx; cbn [bind].
  destruct (randint_range 0 (bh - 1) (rng_skip 1 rng)) as [cy [Hy Hyr]]; [lia|].
  rewrite Hy; cbn [bind].
  assert (Hin : in_bounds (mkVec2 cx cy) bh bw) by (unfold in_bounds; simpl; lia).
  destruct (board_get_in_bounds b _ bh bw Hd Hin) as [v [Hg _]].
  rewrite Hg; cbn [bind]. rewrite (Hno _ v Hin Hg). apply IH.
Qed.

(** X5: what [random_square] does when there is nothing to find or
    nowhere to look.  On a board of [bh > 0] rows of [bw > 0] cells none
    of which is in the state asked for, it ends the process with
    [exit(1)] whatever is drawn; on a board whose first row is empty
    [randint(0, -1)] raises [ValueError]; on the board without rows
    [board[0]] raises [IndexError]. *)
Theorem random_square_nothing_to_find {A : Type} (eqb : A -> A -> bool)
  (b : Board A) bh bw matching rng :
  dims b bh bw -> 0 < bh ->
  (0 < bw ->
   (forall c v, in_bounds c bh bw -> board_get b c = Ok v -> eqb v matching = false) ->
   random_square eqb b matching rng = Raise (SystemExit 1))
  /\
  (bw = 0 -> random_square eqb b matching rng = Raise ValueError)
  /\
  random_square eqb (@nil (list A)) matching rng = Raise IndexError.
Proof.
  intros Hd Hh.
  destruct (getitem_located b 0 O) as [row0 [Hg Hn]].
  { apply py_index_inb. destruct Hd; lia. }
  assert (Hl : Z.of_nat (length row0) = bw).
  { destruct Hd as [_ Hf]. rewrite Forall_forall in Hf. apply Hf.
    eapply nth_error_In; eauto. }
  assert (Hb : Z.of_nat (length b) = bh) by (destruct Hd; assumption).
  split; [|split; [|reflexivity]].
  - intros Hw Hno. unfold random_square. rewrite Hg; cbn [bind].
    rewrite Hl, Hb. apply (random_square_loop_no_match eqb b bh bw); assumption.
  - intros Hw. unfold random_square. rewrite Hg; cbn [bind]. rewrite Hl, Hw.
    destruct (Z.to_nat LOOP_MAX) as [|n] eqn:En; [unfold LOOP_MAX in En; lia|].
    reflexivity.
Qed.

(** ** The firing phase *)

Lemma deployed_reachable h : deployed h -> reachable h.
Proof.
  induction 1; [apply reach_init | eapply reach_place; eauto].
Qed.

Lemma battle_reachable h : battle h -> reachable h.
Proof.
  induction 1 as [h Hd|h c s t r h' _ IH Hpair _ Hf];
    [apply deployed_reachable; assumption | eapply reach_fire; eauto].
Qed.

Lemma deployed_deployed_ok h : deployed h -> deployed_ok h.
Proof.
  induction 1 as [|h origin orientation len owner r h' Hdep IH Hnv].
  - intros u. unfold fresh, User_init; cbn [knowledge ships board].
    split; [reflexivity|]. split; [constructor|].
    intros c Hc. split; [intros []|]. intros _.
    destruct (board_get_in_bounds (new_board SquareState.EMPTY BOARD_HEIGHT BOARD_WIDTH)
                c BOARD_HEIGHT BOARD_WIDTH) as [v [_ Hv]];
      [apply new_board_dims; unfold BOARD_HEIGHT, BOARD_WIDTH; lia | assumption |].
    rewrite Hv. f_equal. eapply new_board_cell; eauto.
  - pose proof (reachable_game_ok h (deployed_reachable h Hdep)) as Hok.
    destruct (Hok owner) as [Hd [_ [_ [Hinb _]]]].
    destruct (new_valid_ship_cases origin orientation len owner h
                BOARD_HEIGHT BOARD_WIDTH Hd eq_refl)
      as [Hnone|[Hall [Hdisj [b' [h2 [Hm [Hsome Hf]]]]]]].
    + rewrite Hnone in Hnv. inversion Hnv; subst. assumption.
    + rewrite Hsome in Hnv. inversion Hnv; subst. clear Hnv.
      set (cands := candidates origin orientation len) in *.
      destruct (mark_ship_cells cands (board (h owner)) _ _ Hd Hall)
        as [b2 [Hm2 [_ [Hset Hkeep]]]].
      rewrite Hm in Hm2. inversion Hm2; subst b2. clear Hm2.
      intros u. destruct (IH u) as [Hk [Hh Hcells]].
      destruct (Hf u) as [Hs [Hb Hkn]]. rewrite Hs, Hb, Hkn.
      split; [assumption|].
      destruct (Nat.eqb u owner) eqn:E; [|split; assumption].
      apply Nat.eqb_eq in E; subst u.
      split.
      { apply Forall_app. split; [assumption|]. constructor; [reflexivity|constructor]. }
      assert (Hone : fleet_squares [Ship_init cands] = cands).
      { unfold fleet_squares; simpl. apply app_nil_r. }
      rewrite fleet_squares_app, Hone.
      intros c Hc. destruct (Hcells c Hc) as [Hin Hout].
      destruct (in_dec Vec2_eq_dec c cands) as [Hi|Hn].
      * split; [|intros Habs; exfalso; apply Habs; apply in_or_app; right; assumption].
        intros _. apply Hset. apply in_map. assumption.
      * assert (Hp : ~ In (pos c) (map pos cands))
          by (rewrite (in_map_pos c cands _ _ Hc Hall); assumption).
        rewrite (Hkeep _ Hp). split.
        -- intros Hi. apply in_app_or in Hi as [Hi|Hi]; [auto | contradiction].
        -- intros Ho. apply Hout. intros Hi. apply Ho. apply in_or_app. left; assumption.
Qed.

Lemma filter_length_all {A} (f : A -> bool) (l : list A) :
  (forall a, In a l -> f a = true) -> length (filter f l) = length l.
Proof.
  induction l as [|a l IH]; intros H; [reflexivity|]. simpl.
  rewrite (H a (or_introl eq_refl)). simpl. f_equal. apply IH.
  intros b Hb. apply H. right; assumption.
Qed.

Lemma filter_length_same {A} (f g : A -> bool) (l : list A) :
  (forall a, In a l -> f a = g a) -> length (filter f l) = length (filter g l).
Proof.
  induction l as [|a l IH]; intros H; [reflexivity|]. simpl.
  rewrite (H a (or_introl eq_refl)).
  assert (IH' : length (filter f l) = length (filter g l))
    by (apply IH; intros b Hb; apply H; right; assumption).
  destruct (g a); simpl; congruence.
Qed.

Lemma filter_length_one_less {A} (f g : A -> bool) (l : list A) c :
  NoDup l -> In c l -> f c = false -> g c = true ->
  (forall a, In a l -> a <> c -> f a = g a) ->
  (length (filter f l) + 1 = length (filter g l))%nat.
Proof.
  induction l as [|a l IH]; intros Hnd Hc Hf Hg Hsame; [contradiction|].
  inversion Hnd as [|? ? Hnotin Hnd']; subst. simpl.
  destruct Hc as [->|Hc].
  - rewrite Hf, Hg. simpl.
    rewrite (filter_length_same f g l); [lia|].
    intros a Ha. apply Hsame; [right; assumption|]. intros ->. contradiction.
  - assert (Hac : a <> c) by (intros ->; contradiction).
    rewrite (Hsame a (or_introl eq_refl) Hac).
    assert (IH' : (length (filter f l) + 1 = length (filter g l))%nat).
    { apply IH; auto. intros b Hb. apply Hsame. right; assumption. }
    destruct (g a); simpl; lia.
Qed.

Lemma pos_neq c d bh bw :
  in_bounds c bh bw -> in_bounds d bh bw -> d <> c -> pos d <> pos c.
Proof.
  intros [? ?] [? ?] Hne Hp. apply Hne. apply pos_inj; lia || assumption.
Qed.

Lemma is_unknown_other kb c v d bh bw :
  in_bounds c bh bw -> in_bounds d bh bw -> d <> c ->
  is_unknown (set_cell kb (pos c) v) d = is_unknown kb d.
Proof.
  intros Hc Hd Hne. unfold is_unknown.
  rewrite cell_set_cell_neq; [reflexivity|]. eapply pos_neq; eauto.
Qed.

Lemma hit_first_inv_none' c l :
  hit_first c l = None -> forall s, In s l -> ~ In c (squares s).
Proof.
  induction l as [|a l IH]; simpl; intros H s Hin; [contradiction|].
  destruct (Vec2_in c (squares a)) eqn:Ea.
  - destruct (Ship_hit a); discriminate.
  - destruct (hit_first c l) as [[sk l']|]; [discriminate|].
    destruct Hin as [<-|Hin]; [apply Vec2_in_false; assumption | apply IH; auto].
Qed.

Lemma deployed_battle_ok h : deployed h -> battle_ok h.
Proof.
  intros Hdep s t Hpair.
  pose proof (deployed_deployed_ok h Hdep) as Hok.
  pose proof (reachable_game_ok h (deployed_reachable h Hdep)) as Hg.
  destruct (Hok s) as [Hk _]. destruct (Hok t) as [_ [Hh Hcells]].
  destruct (Hg t) as [_ [_ [_ [Hinb _]]]].
  assert (Hunk : forall c, in_bounds c BOARD_HEIGHT BOARD_WIDTH ->
                   cell (knowledge (h s)) (pos c) = Some KnowledgeSquareState.UNKNOWN).
  { intros c Hc. rewrite Hk.
    destruct (board_get_in_bounds
                (new_board KnowledgeSquareState.UNKNOWN BOARD_HEIGHT BOARD_WIDTH)
                c BOARD_HEIGHT BOARD_WIDTH) as [v [_ Hv]];
      [apply new_board_dims; unfold BOARD_HEIGHT, BOARD_WIDTH; lia | assumption |].
    rewrite Hv. f_equal. eapply new_board_cell; eauto. }
  split.
  - intros c Hc. unfold mirror_at. rewrite (Hunk c Hc). apply Hcells. assumption.
  - rewrite Forall_forall in *. intros ship Hship. unfold ship_exact, unknown_count.
    rewrite (Hh ship Hship), filter_length_all; [lia|].
    intros c Hc. unfold is_unknown. rewrite Hunk; [reflexivity|].
    apply Hinb. apply In_fleet_squares. eauto.
Qed.

Lemma battle_ok_fire c s t h r h' :
  game_ok h -> battle_ok h ->
  (s = player /\ t = ai) \/ (s = ai /\ t = player) ->
  in_bounds c BOARD_HEIGHT BOARD_WIDTH ->
  fire_missile c s t h = Ok (r, h') ->
  battle_ok h'.
Proof.
  intros Hg Hok Hpair Hc Hf.
  destruct (shooter_of_pair s t Hpair) as [_ Hst].
  destruct (Hg t) as [_ [_ [Hnd [Hinb _]]]].
  apply fire_missile_inv in Hf as [pk [kv [Hlk [Hck [[_ [_ ->]]|[-> Hshot]]]]]];
    [assumption|].
  destruct Hshot as [pb [Hlb [_ Hs]]].
  assert (pk = pos c) as -> by (destruct Hc as [? ?]; eapply locate_nonneg; eauto; lia).
  assert (pb = pos c) as -> by (destruct Hc as [? ?]; eapply locate_nonneg; eauto; lia).
  destruct (locate_cell _ _ _ Hlb) as [old Hold].
  intros s' t' Hpair'.
  assert (Hcase : (s' = s /\ t' = t) \/ (s' = t /\ t' = s)).
  { destruct Hpair as [[-> ->]|[-> ->]], Hpair' as [[-> ->]|[-> ->]]; auto. }
  destruct Hcase as [[-> ->]|[-> ->]].
  2:{ destruct (Hs t) as [_ [_ Ht3]]. destruct (Hs s) as [Hs1 [Hs2 _]].
      assert (Ets : Nat.eqb t s = false) by (apply Nat.eqb_neq; congruence).
      assert (Est : Nat.eqb s t = false) by (apply Nat.eqb_neq; congruence).
      rewrite Ets in Ht3. rewrite Est in Hs1, Hs2. rewrite Ht3, Hs1, Hs2.
      apply Hok. destruct Hpair as [[-> ->]|[-> ->]]; auto. }
  destruct (Hok s t Hpair) as [Hmir Hex].
  destruct (Hs t) as [Ht1 [Ht2 _]]. destruct (Hs s) as [_ [_ Hs3]].
  rewrite Nat.eqb_refl in Ht1, Ht2, Hs3. rewrite Ht1, Ht2, Hs3.
  set (o := shot_outcome c (ships (h t))) in *.
  destruct (shot_outcome_marks c (ships (h t)))
    as [[_ [E2 [E3 E4]]]
       |[_ [E3 [E4 [pre [ship [post [Efl [Hpre [Hin [E2 _]]]]]]]]]]];
    fold o in E2, E3, E4; rewrite E2, E3, E4.
  - (* miss *)
    assert (Hnotin : ~ In c (fleet_squares (ships (h t)))).
    { intros Hi. apply In_fleet_squares in Hi as [sh [Hsh Hcs]].
      revert Hcs. apply (hit_first_inv_none' c (ships (h t))); [|assumption].
      unfold o, shot_outcome in E2.
      destruct (hit_first c (ships (h t))) as [[sk l]|] eqn:Eh; [|reflexivity].
      exfalso. unfold o, shot_outcome in E3. rewrite Eh in E3. discriminate. }
    split.
    + intros d Hd. unfold mirror_at.
      destruct (Vec2_eq_dec d c) as [->|Hne].
      * rewrite (cell_set_cell_eq _ _ _ _ Hck), (cell_set_cell_eq _ _ _ _ Hold).
        split; [assumption | reflexivity].
      * rewrite !cell_set_cell_neq by (eapply pos_neq; eauto).
        apply (Hmir d Hd).
    + rewrite Forall_forall in *. intros sh Hsh. specialize (Hex sh Hsh).
      unfold ship_exact, unknown_count in *.
      rewrite (filter_length_same _ (is_unknown (knowledge (h s)))); [assumption|].
      intros d Hd.
      assert (Hdin : In d (fleet_squares (ships (h t))))
        by (apply In_fleet_squares; eauto).
      eapply is_unknown_other; eauto. intros ->. contradiction.
  - (* hit *)
    assert (Hcin : In c (fleet_squares (ships (h t)))).
    { rewrite Efl. apply In_fleet_squares. exists ship.
      split; [apply in_or_app; right; left; reflexivity | assumption]. }
    split.
    + intros d Hd. unfold mirror_at. rewrite fleet_squares_hit, <- Efl.
      destruct (Vec2_eq_dec d c) as [->|Hne].
      * rewrite (cell_set_cell_eq _ _ _ _ Hck), (cell_set_cell_eq _ _ _ _ Hold).
        split; [assumption | reflexivity].
      * rewrite !cell_set_cell_neq by (eapply pos_neq; eauto).
        apply (Hmir d Hd).
    + assert (Hdis := NoDup_fleet_disjoint _ Hnd).
      rewrite Efl in Hex. apply Forall_app in Hex as [Hexpre Hexrest].
      inversion Hexrest as [|? ? Hexship Hexpost]; subst.
      assert (Hother : forall sh j, j <> length pre ->
                 nth_error (ships (h t)) j = Some sh ->
                 ship_exact (knowledge (h s)) sh ->
                 ship_exact (set_cell (knowledge (h s)) (pos c) KnowledgeSquareState.HIT) sh).
      { intros sh j Hj Hnth Hexs. unfold ship_exact, unknown_count in *.
        rewrite (filter_length_same _ (is_unknown (knowledge (h s)))); [assumption|].
        intros d Hd.
        assert (Hdin : In d (fleet_squares (ships (h t))))
          by (apply In_fleet_squares; exists sh; split;
              [eapply nth_error_In; eauto | assumption]).
        eapply is_unknown_other; eauto. intros ->.
        apply (Hdis j (length pre) sh ship c Hj Hnth); auto.
        rewrite Efl. apply nth_error_middle. }
      apply Forall_app. split; [|constructor].
      * apply Forall_forall. intros sh Hsh.
        apply In_nth_error in Hsh as [j Hj].
        assert (Hjl : (j < length pre)%nat) by (apply nth_error_Some; congruence).
        apply (Hother sh j); [lia | |].
        -- rewrite Efl, nth_error_app1; assumption.
        -- rewrite Forall_forall in Hexpre. apply Hexpre. eapply nth_error_In; eauto.
      * destruct (Ship_hit_fields ship) as [Hh [Hsq _]].
        unfold ship_exact, unknown_count in *. rewrite Hh, Hsq.
        assert (Hnds : NoDup (squares ship)).
        { rewrite Efl, fleet_squares_app in Hnd. apply NoDup_app_remove_l in Hnd.
          unfold fleet_squares in Hnd. simpl in Hnd.
          apply NoDup_app_remove_r in Hnd. assumption. }
        pose proof (filter_length_one_less
                      (is_unknown (set_cell (knowledge (h s)) (pos c)
                                     KnowledgeSquareState.HIT))
                      (is_unknown (knowledge (h s))) (squares ship) c Hnds Hin) as Hone.
        rewrite <- Hone in Hexship; [lia| | |].
        -- unfold is_unknown. rewrite (cell_set_cell_eq _ _ _ _ Hck). reflexivity.
        -- unfold is_unknown. rewrite Hck. reflexivity.
        -- intros d Hd Hne.
           assert (Hdin : In d (fleet_squares (ships (h t)))).
           { rewrite Efl. apply In_fleet_squares. exists ship.
             split; [apply in_or_app; right; left; reflexivity | assumption]. }
           eapply is_unknown_other; eauto.
      * apply Forall_forall. intros sh Hsh.
        apply In_nth_error in Hsh as [j Hj].
        apply (Hother sh (length pre + S j)%nat); [lia | |].
        -- rewrite Efl, nth_error_app2 by lia.
           replace (length pre + S j - length pre)%nat with (S j) by lia.
           assumption.
        -- rewrite Forall_forall in Hexpost. apply Hexpost. eapply nth_error_In; eauto.
Qed.

Lemma battle_battle_ok h : battle h -> battle_ok h.
Proof.
  induction 1 as [h Hd|h c s t r h' Hb IH Hpair Hc Hf].
  - apply deployed_battle_ok. assumption.
  - eapply battle_ok_fire; eauto. apply reachable_game_ok, battle_reachable; assumption.
Qed.

Lemma board_get_pos {A} (b : Board A) c bh bw v :
  dims b bh bw -> in_bounds c bh bw ->
  (board_get b c = Ok v <-> cell b (pos c) = Some v).
Proof.
  intros Hd Hc. rewrite board_get_Ok.
  rewrite (locate_in_bounds b c bh bw Hd Hc). split.
  - intros [p [Hp Hv]]. inversion Hp; subst. assumption.
  - intros H. eauto.
Qed.

(** X6: in the firing phase the shooter's knowledge board tells the truth
    about the target: a square it shows as hit is a square of one of the
    target's ships and is marked hit on the target's board; a square it
    shows as a miss is no ship's square and is marked miss there; a
    square still unknown is untouched on the target's board, [SHIP] if a
    ship lies on it and [EMPTY] otherwise. *)
Theorem knowledge_mirrors_board h s t c :
  battle h ->
  (s = player /\ t = ai) \/ (s = ai /\ t = player) ->
  in_bounds c BOARD_HEIGHT BOARD_WIDTH ->
  (board_get (knowledge (h s)) c = Ok KnowledgeSquareState.HIT /\
   In c (fleet_squares (ships (h t))) /\
   board_get (board (h t)) c = Ok SquareState.HIT)
  \/
  (board_get (knowledge (h s)) c = Ok KnowledgeSquareState.MISS /\
   ~ In c (fleet_squares (ships (h t))) /\
   board_get (board (h t)) c = Ok SquareState.MISS)
  \/
  (board_get (knowledge (h s)) c = Ok KnowledgeSquareState.UNKNOWN /\
   ((In c (fleet_squares (ships (h t))) /\
     board_get (board (h t)) c = Ok SquareState.SHIP) \/
    (~ In c (fleet_squares (ships (h t))) /\
     board_get (board (h t)) c = Ok SquareState.EMPTY))).
Proof.
  intros Hb Hpair Hc.
  pose proof (reachable_game_ok h (battle_reachable h Hb)) as Hg.
  destruct (Hg s) as [_ [Hdk _]]. destruct (Hg t) as [Hdb _].
  destruct (battle_battle_ok h Hb s t Hpair) as [Hmir _].
  specialize (Hmir c Hc). unfold mirror_at in Hmir.
  rewrite !(board_get_pos _ c _ _ _ Hdk Hc), !(board_get_pos _ c _ _ _ Hdb Hc).
  destruct (cell (knowledge (h s)) (pos c)) as [[| |]|]; [| | |contradiction].
  - right. right. split; [reflexivity|]. destruct Hmir as [H1 H2].
    destruct (in_dec Vec2_eq_dec c (fleet_squares (ships (h t)))); auto.
  - right. left. tauto.
  - left. tauto.
Qed.

Lemma count_row_nonneg row : 0 <= count_row row.
Proof. unfold count_row. lia. Qed.

Lemma count_ship_nonneg b : 0 <= count_ship b.
Proof.
  induction b as [|row b IH]; [simpl; lia|].
  rewrite count_ship_cons. pose proof (count_row_nonneg row). lia.
Qed.

Lemma count_row_zero row :
  count_row row = 0 <-> forall j, nth_error row j <> Some SquareState.SHIP.
Proof.
  unfold count_row. induction row as [|a row IH].
  - split; [intros _ [|j]; discriminate | reflexivity].
  - cbn [filter]. destruct a; cbn [SquareState.eqb].
    + rewrite IH. split.
      * intros H [|j]; [discriminate | apply H].
      * intros H j. apply (H (S j)).
    + split; [cbn [length]; lia | intros H; exfalso; apply (H O); reflexivity].
    + rewrite IH. split.
      * intros H [|j]; [discriminate | apply H].
      * intros H j. apply (H (S j)).
    + rewrite IH. split.
      * intros H [|j]; [discriminate | apply H].
      * intros H j. apply (H (S j)).
Qed.

Lemma count_ship_zero b :
  count_ship b = 0 <-> forall p, cell b p <> Some SquareState.SHIP.
Proof.
  induction b as [|row b IH].
  - split; [intros _ [[|i] j]; discriminate | reflexivity].
  - rewrite count_ship_cons.
    pose proof (count_row_nonneg row). pose proof (count_ship_nonneg b). split.
    + intros Hz [[|i] j]; unfold cell; cbn [fst snd nth_error].
      * apply count_row_zero. lia.
      * assert (Hb : count_ship b = 0) by lia.
        rewrite IH in Hb. apply (Hb (i, j)).
    + intros Hn.
      assert (H1 : count_row row = 0)
        by (apply count_row_zero; intros j; apply (Hn (O, j))).
      assert (H2 : count_ship b = 0)
        by (apply IH; intros [i j]; apply (Hn (S i, j))).
      lia.
Qed.

Lemma cell_in_bounds {A} (b : Board A) p v bh bw :
  dims b bh bw -> cell b p = Some v ->
  exists c, in_bounds c bh bw /\ pos c = p.
Proof.
  intros [Hh Hw] Hc. destruct p as [i j]. unfold cell in Hc; cbn [fst snd] in Hc.
  destruct (nth_error b i) as [row|] eqn:Er; [|discriminate].
  assert (Hi : (i < length b)%nat) by (apply nth_error_Some; congruence).
  assert (Hj : (j < length row)%nat) by (apply nth_error_Some; congruence).
  rewrite Forall_forall in Hw.
  assert (Hl : Z.of_nat (length row) = bw) by (apply Hw; eapply nth_error_In; eauto).
  exists (mkVec2 (Z.of_nat j) (Z.of_nat i)). split.
  - unfold in_bounds; cbn [vx vy]. lia.
  - unfold pos; cbn [vx vy]. rewrite !Nat2Z.id. reflexivity.
Qed.

Lemma unknown_count_zero kb sqs :
  unknown_count kb sqs = 0 <-> forall c, In c sqs -> is_unknown kb c = false.
Proof.
  unfold unknown_count. induction sqs as [|a l IH]; cbn [filter].
  - split; [intros _ c [] | reflexivity].
  - destruct (is_unknown kb a) eqn:E.
    + split; [cbn [length]; lia|].
      intros H. rewrite (H a (or_introl eq_refl)) in E. discriminate.
    + rewrite IH. split.
      * intros H c [<-|Hc]; auto.
      * intros H c Hc. apply H. right; assumption.
Qed.

(** X7: in the firing phase a fleet whose ships all have squares is
    entirely sunk exactly when no cell of its owner's board is in state
    [SHIP] any more. *)
Theorem all_sunk_iff_no_ship_cell h u :
  battle h ->
  u = player \/ u = ai ->
  (forall ship, In ship (ships (h u)) -> squares ship <> []) ->
  (all_sunk (ships (h u)) = true <-> count_ship (board (h u)) = 0).
Proof.
  intros Hb Hu Hne.
  pose proof (reachable_game_ok h (battle_reachable h Hb)) as Hg.
  destruct (Hg u) as [Hdb [_ [_ [Hinb Hok]]]].
  assert (Hpair : (shooter_of u = player /\ u = ai) \/ (shooter_of u = ai /\ u = player))
    by (destruct Hu as [-> | ->]; auto).
  destruct (battle_battle_ok h Hb (shooter_of u) u Hpair) as [Hmir Hex].
  rewrite Forall_forall in Hok, Hex.
  rewrite all_sunk_true, count_ship_zero. split.
  - intros Hall p Hp.
    destruct (cell_in_bounds _ p _ _ _ Hdb Hp) as [c [Hc <-]].
    specialize (Hmir c Hc). unfold mirror_at in Hmir.
    destruct (cell (knowledge (h (shooter_of u))) (pos c)) as [[| |]|] eqn:Ek;
      [| | |contradiction].
    + destruct Hmir as [H1 H2].
      destruct (in_dec Vec2_eq_dec c (fleet_squares (ships (h u)))) as [Hi|Hn];
        [|rewrite (H2 Hn) in Hp; discriminate].
      apply In_fleet_squares in Hi as [ship [Hship Hcs]].
      destruct (ship_ok_facts _ ship (Hok ship Hship)) as [_ [Hs _]].
      specialize (Hs (Hall ship Hship)). specialize (Hex ship Hship).
      unfold ship_exact in Hex.
      assert (Hz : unknown_count (knowledge (h (shooter_of u))) (squares ship) = 0) by lia.
      rewrite unknown_count_zero in Hz. specialize (Hz c Hcs).
      unfold is_unknown in Hz. rewrite Ek in Hz. discriminate.
    + destruct Hmir as [_ Hm]. congruence.
    + destruct Hmir as [_ Hm]. congruence.
  - intros Hno ship Hship.
    destruct (ship_ok_facts _ ship (Hok ship Hship)) as [_ [_ Hs]].
    rewrite (Hs (Hne ship Hship)). apply Z.eqb_eq.
    specialize (Hex ship Hship). unfold ship_exact in Hex.
    assert (Hz : unknown_count (knowledge (h (shooter_of u))) (squares ship) = 0);
      [|lia].
    apply unknown_count_zero. intros c Hcs.
    assert (Hcf : In c (fleet_squares (ships (h u))))
      by (apply In_fleet_squares; eauto).
    specialize (Hmir c (Hinb c Hcf)). unfold mirror_at in Hmir. unfold is_unknown.
    destruct (cell (knowledge (h (shooter_of u))) (pos c)) as [[| |]|];
      try reflexivity.
    destruct Hmir as [H1 _]. exfalso. apply (Hno (pos c)). auto.
Qed.

(** X8: in the firing phase the hit counter of a ship is the number of
    its squares marked hit on its owner's board. *)
Theorem hits_count_hit_cells h u ship :
  battle h ->
  u = player \/ u = ai ->
  In ship (ships (h u)) ->
  hits ship = Z.of_nat (length (filter (is_hit_cell (board (h u))) (squares ship))).
Proof.
  intros Hb Hu Hship.
  pose proof (reachable_game_ok h (battle_reachable h Hb)) as Hg.
  destruct (Hg u) as [_ [_ [_ [Hinb _]]]].
  assert (Hpair : (shooter_of u = player /\ u = ai) \/ (shooter_of u = ai /\ u = player))
    by (destruct Hu as [-> | ->]; auto).
  destruct (battle_battle_ok h Hb (shooter_of u) u Hpair) as [Hmir Hex].
  rewrite Forall_forall in Hex. specialize (Hex ship Hship).
  unfold ship_exact, unknown_count in Hex.
  assert (Hsplit : forall l, (forall c, In c l -> In c (squares ship)) ->
             (length (filter (is_unknown (knowledge (h (shooter_of u)))) l)
              + length (filter (is_hit_cell (board (h u))) l) = length l)%nat).
  { induction l as [|a l IH]; intros Hl; [reflexivity|]. cbn [filter length].
    assert (IH' := IH (fun c Hc => Hl c (or_intror Hc))).
    assert (Ha : In a (fleet_squares (ships (h u))))
      by (apply In_fleet_squares; exists ship; split;
          [assumption | apply Hl; left; reflexivity]).
    specialize (Hmir a (Hinb a Ha)). unfold mirror_at in Hmir.
    unfold is_unknown at 1, is_hit_cell at 1.
    destruct (cell (knowledge (h (shooter_of u))) (pos a)) as [[| |]|];
      [| | |contradiction].
    - destruct Hmir as [H1 _]. rewrite (H1 Ha). cbn [length]. lia.
    - destruct Hmir as [Hn _]. contradiction.
    - destruct Hmir as [_ H1]. rewrite H1. cbn [length]. lia. }
  specialize (Hsplit (squares ship) (fun c Hc => Hc)). lia.
Qed.

(** ** The opponent's fleet *)

Lemma place_retry_inv fuel : forall len owner rng h bh bw,
  dims (board (h owner)) bh bw -> 0 < bh -> 0 < bw ->
  match place_retry fuel len owner rng h with
  | None => True
  | Some (Raise e) => e = SystemExit 1
  | Some (Ok (new_ship, _, h')) =>
      exists origin orientation,
        new_valid_ship origin orientation len owner h = Ok (Some new_ship, h') /\
        board_get (board (h owner)) origin = Ok SquareState.EMPTY
  end.
Proof.
  induction fuel as [|fuel IH]; intros len owner rng h bh bw Hd Hh Hw; [exact I|].
  cbn [place_retry]. unfold random_square.
  destruct (getitem_located (board (h owner)) 0 O) as [row0 [Hg Hn]].
  { apply py_index_inb. destruct Hd; lia. }
  rewrite Hg; cbn [bind].
  assert (Hl : Z.of_nat (length row0) = bw).
  { destruct Hd as [_ Hf]. rewrite Forall_forall in Hf. apply Hf.
    eapply nth_error_In; eauto. }
  assert (Hb : Z.of_nat (length (board (h owner))) = bh) by (destruct Hd; assumption).
  rewrite Hl, Hb.
  destruct (random_square_loop_bounded SquareState.eqb (board (h owner)) bh bw
              SquareState.EMPTY (Z.to_nat LOOP_MAX) Hd Hh Hw rng)
    as [Hexit|[c [rng' [k [v [Hr [Hc [Hgv [Hv _]]]]]]]]].
  - rewrite Hexit. reflexivity.
  - rewrite Hr. destruct (choice_members rng') as [o Ho]. rewrite Ho.
    destruct (new_valid_ship_cases c o len owner h bh bw Hd Hh)
      as [Hnone|[_ [_ [b' [h' [_ [Hsome _]]]]]]].
    + rewrite Hnone. exact (IH len owner (rng_skip 1 rng') h bh bw Hd Hh Hw).
    + rewrite Hsome. exists c, o. split; [exact Hsome|].
      rewrite Hgv. destruct v; simpl in Hv; congruence.
Qed.

Lemma new_valid_ship_others origin orientation len owner h r h' bh bw :
  dims (board (h owner)) bh bw -> 0 < bh ->
  new_valid_ship origin orientation len owner h = Ok (r, h') ->
  (forall u, u <> owner -> h' u = h u) /\
  (r = None -> h' = h) /\
  (forall ship, r = Some ship ->
     ships (h' owner) = ships (h owner) ++ [ship] /\
     Z.of_nat (length (squares ship)) = Z.max 0 len).
Proof.
  intros Hd Hh Hnv.
  destruct (new_valid_ship_cases origin orientation len owner h bh bw Hd Hh)
    as [Hnone|[_ [_ [b' [h2 [_ [Hsome Hf]]]]]]].
  - rewrite Hnone in Hnv. inversion Hnv; subst.
    split; [reflexivity|]. split; [reflexivity | discriminate].
  - rewrite Hsome in Hnv. inversion Hnv; subst. split; [|split; [discriminate|]].
    + intros u Hu. destruct (Hf u) as [Hs [Hb Hk]].
      apply Nat.eqb_neq in Hu. rewrite Hu in Hs, Hb.
      apply User_fields_eq; assumption.
    + intros ship E. inversion E; subst. destruct (Hf owner) as [Hs _].
      rewrite Nat.eqb_refl in Hs. split; [assumption|].
      cbn [Ship_init squares]. rewrite candidates_length. lia.
Qed.

(** X9: the opponent's placement loop over a list of lengths, started on
    a board in its placement phase: when it ends, it ends with [exit(1)]
    of the random search or with one ship per length appended in order,
    of [max(length, 0)] squares each, no two ships of the fleet sharing a
    coordinate, all of them on the board, the board counting as many
    [SHIP] cells as the fleet has squares, and no other user touched. *)
Theorem place_fleet_spec fuel lengths owner : forall rng h bh bw,
  placed_ok (h owner) bh bw -> 0 < bh -> 0 < bw ->
  match place_fleet fuel lengths owner rng h with
  | None => True
  | Some (Raise e) => e = SystemExit 1
  | Some (Ok (_, h')) =>
      map (fun ship => Z.of_nat (length (squares ship))) (ships (h' owner))
      = map (fun ship => Z.of_nat (length (squares ship))) (ships (h owner))
        ++ map (Z.max 0) lengths /\
      disjoint_fleet (ships (h' owner)) /\
      (forall c, In c (fleet_squares (ships (h' owner))) -> in_bounds c bh bw) /\
      count_ship (board (h' owner)) = total_length (ships (h' owner)) /\
      (forall u, u <> owner -> h' u = h u)
  end.
Proof.
  induction lengths as [|len lengths IH]; intros rng h bh bw Hok Hh Hw.
  - cbn [place_fleet map]. rewrite app_nil_r.
    destruct Hok as [Hd [Hnd [Hin [_ Hcnt]]]].
    split; [reflexivity|]. split; [apply NoDup_fleet_disjoint; assumption|].
    split; [assumption|]. split; [assumption | reflexivity].
  - cbn [place_fleet].
    pose proof (place_retry_inv fuel len owner rng h bh bw
                  (proj1 Hok) Hh Hw) as Hinv.
    destruct (place_retry fuel len owner rng h) as [[[[ship rng'] h1]|e]|];
      [|assumption|exact I].
    destruct Hinv as [origin [orientation [Hnv _]]].
    pose proof (placed_ok_step _ _ _ _ _ _ _ _ _ Hok Hh Hnv) as Hok1.
    destruct (new_valid_ship_others _ _ _ _ _ _ _ _ _ (proj1 Hok) Hh Hnv)
      as [Hoth [_ Hship]].
    destruct (Hship ship eq_refl) as [Hs Hlen].
    specialize (IH rng' h1 bh bw Hok1 Hh Hw).
    destruct (place_fleet fuel lengths owner rng' h1) as [[[rng2 h2]|e]|];
      [|assumption|exact I].
    destruct IH as [Hmap [Hdis [Hin [Hcnt Hoth2]]]].
    split; [|split; [assumption|split; [assumption|split; [assumption|]]]].
    + rewrite Hmap, Hs, map_app. cbn [map]. rewrite Hlen, <- app_assoc.
      reflexivity.
    + intros u Hu. rewrite Hoth2, Hoth by assumption. reflexivity.
Qed.

(** ** The player's turn *)



(** ** Display *)

Lemma str_int_digit i : 0 <= i <= 9 -> str_int i = [48 + i].
Proof.
  intros H.
  assert (E : i = 0 \/ i = 1 \/ i = 2 \/ i = 3 \/ i = 4 \/ i = 5 \/ i = 6
              \/ i = 7 \/ i = 8 \/ i = 9) by lia.
  destruct E as [->|[->|[->|[->|[->|[->|[->|[->|[->| ->]]]]]]]]]; reflexivity.
Qed.

Lemma join_singletons_length (sep : Z) (parts : list Text) :
  (forall a, In a parts -> length a = 1%nat) ->
  parts <> [] ->
  (length (join [sep] parts) + 1 = 2 * length parts)%nat.
Proof.
  induction parts as [|a parts IH]; intros H Hne; [congruence|].
  destruct parts as [|a' parts].
  - cbn [join length]. rewrite (H a (or_introl eq_refl)). lia.
  - change (join [sep] (a :: a' :: parts))
      with (a ++ [sep] ++ join [sep] (a' :: parts)).
    rewrite !length_app. rewrite (H a (or_introl eq_refl)).
    assert (IH' : (length (join [sep] (a' :: parts)) + 1
                   = 2 * length (a' :: parts))%nat).
    { apply IH; [|discriminate]. intros b Hb. apply H. right; assumption. }
    cbn [length] in *. lia.
Qed.

Lemma join_singletons_nth (sep : Z) (f : Z -> Z) (l : list Z) (tail : Text) k x :
  nth_error l k = Some x ->
  nth_error (join [sep] (map (fun i => [f i]) l) ++ tail) (2 * k) = Some (f x).
Proof.
  revert k. induction l as [|a l IH]; intros k Hk; [destruct k; discriminate|].
  destruct k as [|k].
  - inversion Hk; subst. destruct l; reflexivity.
  - cbn [nth_error] in Hk. destruct l as [|a' l]; [destruct k; discriminate|].
    change (join [sep] (map (fun i => [f i]) (a :: a' :: l)))
      with ([f a] ++ [sep] ++ join [sep] (map (fun i => [f i]) (a' :: l))).
    replace (2 * S k)%nat with (S (S (2 * k))) by lia.
    cbn [app nth_error]. apply IH. assumption.
Qed.

Lemma range_nth n k :
  0 <= Z.of_nat k < n -> nth_error (range n) k = Some (Z.of_nat k).
Proof.
  intros H. unfold range. rewrite nth_error_map.
  rewrite nth_error_seq.
  replace (Nat.ltb k (Z.to_nat n)) with true
    by (symmetry; apply Nat.ltb_lt; lia).
  reflexivity.
Qed.

Lemma display_rows_lines {A} (value : A -> Text) (b : Board A) indices :
  (forall i, In i indices -> 0 <= i < Z.of_nat (length b) /\ i <= 1114046) ->
  display_rows value b indices = Ok (map (row_line value b) indices).
Proof.
  induction indices as [|i indices IH]; intros H; [reflexivity|].
  cbn [display_rows map].
  destruct (H i (or_introl eq_refl)) as [Hi Hmax].
  unfold chr.
  replace ((0 <=? i + 65) && (i + 65 <=? 1114111)) with true
    by (symmetry; apply andb_true_iff; split; [apply Z.leb_le | apply Z.leb_le]; lia).
  cbn [bind].
  destruct (getitem_located b i (Z.to_nat i)) as [row [Hg Hn]];
    [apply py_index_inb; lia|].
  rewrite Hg; cbn [bind].
  rewrite IH by (intros j Hj; apply H; right; assumption). cbn [bind].
  unfold row_line. rewrite (nth_error_nth _ _ _ Hn). reflexivity.
Qed.

Lemma display_board_lines {A} (value : A -> Text) (b : Board A) bh bw :
  dims b bh bw -> 1 <= bh <= 1114047 ->
  display_board value b
  = Ok (([9474; 32; 32; 32] ++ join [32] (map str_int (range bw))
         ++ [32; 32; 32; 9474])
        :: map (row_line value b) (range bh)).
Proof.
  intros [Hh Hw] Hb. unfold display_board.
  destruct (getitem_located b 0 O) as [row0 [Hg Hn]]; [apply py_index_inb; lia|].
  rewrite Hg; cbn [bind].
  rewrite Forall_forall in Hw.
  rewrite (Hw row0) by (eapply nth_error_In; eauto). rewrite Hh.
  rewrite display_rows_lines; [reflexivity|].
  intros i Hi. apply In_range in Hi. lia.
Qed.

Lemma row_line_length {A} (value : A -> Text) (b : Board A) bh bw i :
  dims b bh bw -> 1 <= bw -> 0 <= i < bh ->
  (forall a, length (value a) = 1%nat) ->
  Z.of_nat (length (row_line value b i)) = 2 * bw + 7.
Proof.
  intros [Hh Hw] Hbw Hi Hval. unfold row_line.
  destruct (nth_error b (Z.to_nat i)) as [row|] eqn:Er;
    [|apply nth_error_None in Er; lia].
  rewrite (nth_error_nth _ _ _ Er).
  rewrite Forall_forall in Hw.
  assert (Hl : Z.of_nat (length row) = bw) by (apply Hw; eapply nth_error_In; eauto).
  pose proof (join_singletons_length 32 (map value row)) as Hj.
  rewrite length_map in Hj.
  rewrite !length_app. cbn [length].
  assert (Hj' : (length (join [32%Z] (map value row)) + 1 = 2 * length row)%nat).
  { apply Hj.
    - intros a Ha. apply in_map_iff in Ha as [x [<- _]]. apply Hval.
    - destruct row; [simpl in Hl; lia | discriminate]. }
  lia.
Qed.

Lemma header_length bw :
  1 <= bw <= 10 ->
  Z.of_nat (length ([9474; 32; 32; 32] ++ join [32] (map str_int (range bw))
                    ++ [32; 32; 32; 9474])) = 2 * bw + 7.
Proof.
  intros Hbw.
  pose proof (join_singletons_length 32 (map str_int (range bw))) as Hj.
  rewrite length_map, range_length in Hj.
  rewrite !length_app. cbn [length].
  assert (Hj' : (length (join [32%Z] (map str_int (range bw))) + 1
                 = 2 * Z.to_nat bw)%nat).
  { apply Hj.
    - intros a Ha. apply in_map_iff in Ha as [x [<- Hx]]. apply In_range in Hx.
      rewrite str_int_digit by lia. reflexivity.
    - intros E. apply (f_equal (@length Text)) in E.
      rewrite length_map, range_length in E. simpl in E. lia. }
  lia.
Qed.

Lemma rule_length n : 0 <= n -> Z.of_nat (length (rule n)) = n.
Proof. intros H. unfold rule. rewrite repeat_length. lia. Qed.

Lemma display_any_aligned b bh bw :
  any_dims b bh bw -> 1 <= bh <= 1114047 -> 1 <= bw <= 10 ->
  exists lines,
    display_any b = Ok lines /\
    Forall (fun l => Z.of_nat (length l) = 2 * bw + 7) lines /\
    Z.of_nat (length lines) = bh + 1.
Proof.
  intros Hd Hbh Hbw. destruct b as [b|b]; cbn [any_dims display_any] in *.
  - rewrite (display_board_lines _ b bh bw Hd Hbh). eexists; split; [reflexivity|].
    split.
    + constructor; [apply header_length; assumption|].
      apply Forall_forall. intros l Hl. apply in_map_iff in Hl as [i [<- Hi]].
      apply In_range in Hi. apply (row_line_length _ b bh bw); auto; try lia.
      intros []; reflexivity.
    + cbn [length]. rewrite length_map, range_length. lia.
  - rewrite (display_board_lines _ b bh bw Hd Hbh). eexists; split; [reflexivity|].
    split.
    + constructor; [apply header_length; assumption|].
      apply Forall_forall. intros l Hl. apply in_map_iff in Hl as [i [<- Hi]].
      apply In_range in Hi. apply (row_line_length _ b bh bw); auto; try lia.
      intros []; reflexivity.
    + cbn [length]. rewrite length_map, range_length. lia.
Qed.

Lemma display_each_aligned boards : forall i n bw,
  (forall b, In b boards ->
     any_dims b (any_height b) bw /\ 1 <= any_height b <= 1114047) ->
  1 <= bw <= 10 ->
  i + Z.of_nat (length boards) = n ->
  exists lines,
    display_each boards i n (bw * 2 + 5) = Ok lines /\
    Forall (fun l => Z.of_nat (length l) = 2 * bw + 7) lines /\
    Z.of_nat (length lines)
    = fold_right (fun b acc => any_height b + 2 + acc) 0 boards.
Proof.
  induction boards as [|b boards IH]; intros i n bw Hall Hbw Hn.
  - exists []. repeat split; constructor.
  - cbn [display_each].
    destruct (Hall b (or_introl eq_refl)) as [Hd Hh].
    destruct (display_any_aligned b _ bw Hd Hh Hbw) as [lines [Hl [Hf Hlen]]].
    rewrite Hl; cbn [bind].
    destruct (IH (i + 1) n bw) as [more [Hm [Hfm Hlm]]];
      [intros b' Hb'; apply Hall; right; assumption | assumption
       | cbn [length] in Hn; lia |].
    rewrite Hm; cbn [bind]. eexists; split; [reflexivity|].
    assert (Hrule : forall a z, Z.of_nat (length ([a] ++ rule (bw * 2 + 5) ++ [z]))
                                = 2 * bw + 7).
    { intros a z. rewrite !length_app. cbn [length].
      pose proof (rule_length (bw * 2 + 5)). lia. }
    cbn [length] in Hn. cbn [fold_right].
    destruct (i <? n - 1) eqn:E1; [|destruct (i =? n - 1) eqn:E2].
    + split.
      * apply Forall_app. split; [assumption|]. apply Forall_app.
        split; [constructor; [apply Hrule | constructor] | assumption].
      * rewrite !length_app, <- Hlm. cbn [length]. unfold Text in *. lia.
    + split.
      * apply Forall_app. split; [assumption|]. apply Forall_app.
        split; [constructor; [apply Hrule | constructor] | assumption].
      * rewrite !length_app, <- Hlm. cbn [length]. unfold Text in *. lia.
    + exfalso. apply Z.ltb_ge in E1. apply Z.eqb_neq in E2. lia.
Qed.

(** X11: [display_boards] draws an aligned box when the boards given all
    have rows of the same [bw] cells, [1 <= bw <= 10] (the column numbers
    then have one digit each), and between 1 and 55231 rows each (the row
    letters then stay below the surrogate code points): every line it
    prints has [2 * bw + 7] characters, and it prints one line for the
    top border and, for each board, its header, its rows and a border.
    Without a board, or when the first board has no row, it raises
    [IndexError]. *)
Theorem display_boards_aligned (boards : list AnyBoard) bw :
  boards <> [] ->
  (forall b, In b boards ->
     any_dims b (any_height b) bw /\ 1 <= any_height b <= 55231) ->
  1 <= bw <= 10 ->
  (exists lines,
     display_boards boards = Ok lines /\
     Forall (fun l => Z.of_nat (length l) = 2 * bw + 7) lines /\
     Z.of_nat (length lines)
     = 1 + fold_right (fun b acc => any_height b + 2 + acc) 0 boards)
  /\ display_boards [] = Raise IndexError
  /\ (forall rest, display_boards (MainB [] :: rest) = Raise IndexError)
  /\ (forall rest, display_boards (KnowB [] :: rest) = Raise IndexError).
Proof.
  intros Hne Hall0 Hbw. split; [|repeat split].
  assert (Hall : forall b, In b boards ->
            any_dims b (any_height b) bw /\ 1 <= any_height b <= 1114047).
  { intros b Hb. destruct (Hall0 b Hb) as [Hd Hh]. split; [assumption | lia]. }
  destruct boards as [|b0 boards]; [congruence|].
  unfold display_boards.
  change (getitem (b0 :: boards) 0) with (Ok b0). cbn [bind].
  destruct (Hall b0 (or_introl eq_refl)) as [Hd0 Hh0].
  assert (Hfirst : first_row_length b0 = Ok bw).
  { destruct b0 as [b|b]; cbn [first_row_length any_dims any_height] in *;
      destruct Hd0 as [_ Hw];
      (destruct (getitem_located b 0 O) as [row0 [Hg Hn]];
       [apply py_index_inb; lia|]);
      rewrite Hg; cbn [bind]; rewrite Forall_forall in Hw;
      rewrite (Hw row0) by (eapply nth_error_In; eauto); reflexivity. }
  rewrite Hfirst; cbn [bind].
  destruct (display_each_aligned (b0 :: boards) 0 (Z.of_nat (length (b0 :: boards)))
              bw Hall Hbw eq_refl) as [lines [Hl [Hf Hlen]]].
  rewrite Hl; cbn [bind]. eexists; split; [reflexivity|]. split.
  - constructor; [|assumption]. rewrite !length_app. cbn [length].
    pose proof (rule_length (bw * 2 + 5)). lia.
  - cbn [length]. lia.
Qed.

Lemma ord_ascii_of_code n : 0 <= n < 256 -> ord (ascii_of_code n) = n.
Proof.
  intros H. unfold ord, ascii_of_code. rewrite N_ascii_embedding by lia. lia.
Qed.

Lemma decode_notation_letter_digit {A} (b : Board A) bh bw c c0 c1 :
  dims b bh bw -> 0 < bh -> in_bounds c bh bw ->
  ord (lower_char c0) - 97 = vy c ->
  48 <= ord c1 <= 57 -> ord c1 - 48 = vx c ->
  decode_notation (String c0 (String c1 EmptyString)) b = Ok (Some c).
Proof.
  intros Hd Hh Hc Hrow Hdig Hcol. unfold decode_notation.
  cbn [list_ascii_of_string length lower map].
  change (negb (Z.of_nat 2 =? 2)) with false. cbv iota.
  change (getitem [lower_char c0; lower_char c1] 0) with (Ok (lower_char c0)).
  change (getitem [c0; c1] 1) with (Ok c1). cbn [bind].
  unfold int_of_char.
  replace ((48 <=? ord c1) && (ord c1 <=? 57)) with true
    by (symmetry; apply andb_true_iff; split; apply Z.leb_le; lia).
  cbn [bind]. rewrite Hrow, Hcol.
  replace (mkVec2 (vx c) (vy c)) with c by (destruct c; reflexivity).
  destruct (square_in_board_dims b c bh bw Hd Hh) as [r [Hr Hiff]].
  rewrite Hr; cbn [bind].
  assert (r = true) as -> by (apply Hiff; assumption).
  reflexivity.
Qed.

(** X12: what [display_board] shows can be typed back.  On a board of
    [1 <= bh <= 26] rows of [1 <= bw <= 10] cells, for every in-bounds
    square, the letter printed at the head of the square's row followed
    by the number printed above its column is a text [decode_notation]
    maps to that square, with the letter as printed (a capital) or in
    lower case. *)
Theorem display_decode_round_trip {A : Type} (value : A -> Text) (b : Board A)
  bh bw c :
  dims b bh bw -> 1 <= bh <= 26 -> 1 <= bw <= 10 ->
  in_bounds c bh bw ->
  exists lines header line letter digit,
    display_board value b = Ok lines /\
    nth_error lines 0 = Some header /\
    nth_error lines (S (Z.to_nat (vy c))) = Some line /\
    nth_error line 2 = Some letter /\
    nth_error header (4 + 2 * Z.to_nat (vx c)) = Some digit /\
    decode_notation
      (String (ascii_of_code letter) (String (ascii_of_code digit) EmptyString)) b
    = Ok (Some c) /\
    decode_notation
      (String (ascii_of_code (letter + 32))
         (String (ascii_of_code digit) EmptyString)) b
    = Ok (Some c).
Proof.
  intros Hd Hbh Hbw [Hx Hy].
  rewrite (display_board_lines value b bh bw Hd) by lia.
  eexists. exists ([9474; 32; 32; 32] ++ join [32] (map str_int (range bw))
                   ++ [32; 32; 32; 9474]),
    (row_line value b (vy c)), (vy c + 65), (48 + vx c).
  split; [reflexivity|]. split; [reflexivity|].
  split.
  { cbn [nth_error]. rewrite nth_error_map, range_nth by lia. cbn [option_map].
    f_equal. f_equal. lia. }
  split; [reflexivity|].
  split.
  { change ([9474; 32; 32; 32] ++ join [32] (map str_int (range bw))
            ++ [32; 32; 32; 9474])
      with (9474 :: 32 :: 32 :: 32
            :: (join [32] (map str_int (range bw)) ++ [32; 32; 32; 9474])).
    replace (4 + 2 * Z.to_nat (vx c))%nat
      with (S (S (S (S (2 * Z.to_nat (vx c)))))) by lia.
    cbn [nth_error].
    rewrite (map_ext_in str_int (fun i => [48 + i])).
    - rewrite (join_singletons_nth 32 (fun i => 48 + i) (range bw) _
                 (Z.to_nat (vx c)) (vx c)); [reflexivity|].
      rewrite range_nth by lia. f_equal. lia.
    - intros i Hi. apply In_range in Hi. apply str_int_digit. lia. }
  assert (Hc : in_bounds c bh bw) by (split; assumption).
  split.
  - apply (decode_notation_letter_digit b bh bw c); try assumption; try lia.
    + rewrite ord_lower_upper; rewrite ord_ascii_of_code by lia; lia.
    + rewrite ord_ascii_of_code by lia. lia.
    + rewrite ord_ascii_of_code by lia. lia.
  - apply (decode_notation_letter_digit b bh bw c); try assumption; try lia.
    + rewrite ord_lower_keep; rewrite ord_ascii_of_code by lia; lia.
    + rewrite ord_ascii_of_code by lia. lia.
    + rewrite ord_ascii_of_code by lia. lia.
Qed.

(** ** The player's placement loop *)





(** ** The further properties at concrete inputs *)

Lemma battle_fire_seq s t cs : forall h tr h',
  (s = player /\ t = ai) \/ (s = ai /\ t = player) ->
  (forall c, In c cs -> in_bounds c BOARD_HEIGHT BOARD_WIDTH) ->
  battle h -> fire_seq s t cs h = Ok (tr, h') -> battle h'.
Proof.
  induction cs as [|c cs IH]; intros h tr h' Hpair Hin Hb Hf.
  - simpl in Hf. inversion Hf; subst; assumption.
  - cbn [fire_seq] in Hf.
    destruct (fire_missile c s t h) as [[r h1]|e] eqn:E; [|discriminate].
    cbn [bind] in Hf.
    destruct (fire_seq s t cs h1) as [[tr1 h2]|e] eqn:E2; [|discriminate].
    cbn [bind] in Hf. inversion Hf; subst.
    eapply IH; [assumption| | |exact E2].
    + intros d Hd. apply Hin. right; assumption.
    + eapply battle_fire; eauto. apply Hin. left; reflexivity.
Qed.

Lemma scenario_end_battle : battle scenario_end.
Proof.
  apply (battle_fire_seq ai player scenario_shots scenario_placed
           [(mkVec2 1 1, FireResult.HIT); (mkVec2 2 1, FireResult.SUNK);
            (mkVec2 1 1, FireResult.FAIL); (mkVec2 5 5, FireResult.MISS)]).
  - right. split; reflexivity.
  - intros c Hc. apply concrete_in_bounds.
    repeat (destruct Hc as [<-|Hc]; [reflexivity|]). destruct Hc.
  - apply battle_start.
    apply (deployed_place fresh (mkVec2 1 1) Orientation.E 2 player
             (Some (mkShip 0 false [mkVec2 1 1; mkVec2 2 1])) scenario_placed
             deployed_init).
    reflexivity.
  - reflexivity.
Qed.

(** The square (-1, 3) is refused, and Python reads it as (9, 3). *)
Lemma square_in_board_indexable_witness :
  square_in_board (mkVec2 (-1) 3) (board User_init) = Ok false /\
  exists v, board_get (board User_init) (mkVec2 (-1) 3) = Ok v /\
            cell (board User_init) (pos (mkVec2 9 3)) = Some v.
Proof.
  split; [reflexivity|].
  destruct (square_in_board_indexable (board User_init) (mkVec2 (-1) 3) 10 10)
    as [r [Hr [_ [_ [Hneg _]]]]].
  - apply concrete_dims. vm_compute. reflexivity.
  - reflexivity.
  - assert (r = false) as -> by (vm_compute in Hr; inversion Hr; reflexivity).
    destruct Hneg as [v [Hg [Hv _]]];
      [reflexivity | simpl; lia | simpl; lia |].
    exists v. split; assumption.
Defined.

(** A shot at (-1, -8), on the fleet of the source's test block, lands on
    the ship square (9, 2) and marks it as a miss. *)
Lemma fire_missile_negative_wraps_witness :
  In (mkVec2 9 2) (fleet_squares (ships (test_heap player))) /\
  exists h',
    fire_missile (mkVec2 (-1) (-8)) ai player test_heap = Ok (FireResult.MISS, h') /\
    board_get (board (h' player)) (mkVec2 9 2) = Ok SquareState.MISS.
Proof.
  split; [vm_compute; tauto|].
  destruct (fire_missile_negative_wraps (mkVec2 (-1) (-8)) ai player test_heap 10 10)
    as [h' [Hf [_ [Hb _]]]].
  - apply concrete_dims. vm_compute. reflexivity.
  - apply concrete_dims. vm_compute. reflexivity.
  - simpl; lia.
  - simpl; lia.
  - left. simpl; lia.
  - intros d Hd. vm_compute in Hd.
    repeat (destruct Hd as [<-|Hd]; [simpl; lia|]). destruct Hd.
  - reflexivity.
  - exists h'. split; assumption.
Defined.

(** No cell of a fresh board is a ship: the search for one gives up. *)
Lemma random_square_nothing_to_find_witness :
  random_square SquareState.eqb (board (fresh ai)) SquareState.SHIP sample_rng
  = Raise (SystemExit 1).
Proof.
  destruct (random_square_nothing_to_find SquareState.eqb (board (fresh ai)) 10 10
              SquareState.SHIP sample_rng) as [Hexit _].
  - apply concrete_dims. vm_compute. reflexivity.
  - reflexivity.
  - apply Hexit; [reflexivity|].
    intros c v Hc Hg. apply board_get_Ok in Hg as [p [_ Hp]].
    apply new_board_cell in Hp. subst v. reflexivity.
Defined.

(** After the scenario the opponent knows (1,1) as a hit, and it is. *)
Lemma knowledge_mirrors_board_witness :
  board_get (knowledge (scenario_end ai)) (mkVec2 1 1) = Ok KnowledgeSquareState.HIT /\
  In (mkVec2 1 1) (fleet_squares (ships (scenario_end player))) /\
  board_get (board (scenario_end player)) (mkVec2 1 1) = Ok SquareState.HIT.
Proof.
  destruct (knowledge_mirrors_board scenario_end ai player (mkVec2 1 1))
    as [H|[[H _]|[H _]]].
  - apply scenario_end_battle.
  - right. split; reflexivity.
  - apply concrete_in_bounds. reflexivity.
  - exact H.
  - vm_compute in H. discriminate.
  - vm_compute in H. discriminate.
Defined.

(** After the scenario the player's fleet is sunk and no cell is a ship. *)
Lemma all_sunk_iff_no_ship_cell_witness :
  all_sunk (ships (scenario_end player)) = true /\
  count_ship (board (scenario_end player)) = 0.
Proof.
  split; [reflexivity|].
  apply (all_sunk_iff_no_ship_cell scenario_end player).
  - apply scenario_end_battle.
  - left. reflexivity.
  - intros ship [<-|[]]. discriminate.
  - reflexivity.
Defined.

(** After the scenario the player's ship counts its two hit cells. *)
Lemma hits_count_hit_cells_witness :
  In (mkShip 2 true [mkVec2 1 1; mkVec2 2 1]) (ships (scenario_end player)) /\
  hits (mkShip 2 true [mkVec2 1 1; mkVec2 2 1])
  = Z.of_nat (length (filter (is_hit_cell (board (scenario_end player)))
                        (squares (mkShip 2 true [mkVec2 1 1; mkVec2 2 1])))).
Proof.
  assert (Hin : In (mkShip 2 true [mkVec2 1 1; mkVec2 2 1])
                   (ships (scenario_end player)))
    by (left; reflexivity).
  split; [exact Hin|].
  apply (hits_count_hit_cells scenario_end player _ scenario_end_battle
           (or_introl eq_refl) Hin).
Defined.

(** With the sample draws the opponent's standard fleet is placed. *)
Lemma place_fleet_spec_witness :
  match place_fleet 30 SHIP_LENGTHS ai sample_rng fresh with
  | Some (Ok (_, h')) =>
      map (fun ship => Z.of_nat (length (squares ship))) (ships (h' ai))
      = [5; 4; 3; 3; 2] /\
      disjoint_fleet (ships (h' ai)) /\
      count_ship (board (h' ai)) = total_length (ships (h' ai))
  | _ => False
  end.
Proof.
  pose proof (place_fleet_spec 30 SHIP_LENGTHS ai sample_rng fresh 10 10
                User_init_placed_ok eq_refl eq_refl) as H.
  destruct (place_fleet 30 SHIP_LENGTHS ai sample_rng fresh) as [[[rng' h']|e]|] eqn:E.
  - destruct H as [Hmap [Hdis [_ [Hcnt _]]]]. split; [exact Hmap|]. split; assumption.
  - vm_compute in E. discriminate.
  - vm_compute in E. discriminate.
Defined.


(** The three boards of the main loop make a box of 37 lines of 27
    characters. *)
Lemma display_boards_aligned_witness :
  exists lines,
    display_boards (default_boards fresh) = Ok lines /\
    Forall (fun l => Z.of_nat (length l) = 27) lines /\
    Z.of_nat (length lines) = 37.
Proof.
  destruct (display_boards_aligned (default_boards fresh) 10)
    as [[lines [Hl [Hf Hlen]]] _].
  - discriminate.
  - intros b Hb.
    repeat (destruct Hb as [<-|Hb];
            [split; [apply concrete_dims; vm_compute; reflexivity
                    | vm_compute; split; discriminate]|]).
    destruct Hb.
  - lia.
  - exists lines. split; [exact Hl|]. split; [exact Hf | exact Hlen].
Defined.

(** "C4", read off the display of a fresh board, decodes to (4, 2). *)
Lemma display_decode_round_trip_witness :
  exists lines header line letter digit,
    display_board SquareState_value (board User_init) = Ok lines /\
    nth_error lines 0 = Some header /\
    nth_error lines 3 = Some line /\
    nth_error line 2 = Some letter /\
    nth_error header 12 = Some digit /\
    decode_notation
      (String (ascii_of_code letter) (String (ascii_of_code digit) EmptyString))
      (board User_init)
    = Ok (Some (mkVec2 4 2)).
Proof.
  destruct (display_decode_round_trip SquareState_value (board User_init) 10 10
              (mkVec2 4 2))
    as [lines [header [line [letter [digit [H1 [H2 [H3 [H4 [H5 [H6 _]]]]]]]]]]].
  - apply concrete_dims. vm_compute. reflexivity.
  - lia.
  - lia.
  - apply concrete_in_bounds. reflexivity.
  - exists lines, header, line, letter, digit.
    split; [exact H1|]. split; [exact H2|]. split; [exact H3|].
    split; [exact H4|]. split; [exact H5 | exact H6].
Defined.

